(** * cloud_sort: the host-orchestrated OpenCL radix sort (src/opencl_sort.cpp)

    A shallow embedding of [run_opencl_radix] and of its two device stages,
    with the properties of the design document proved about it.

    Conventions.
    - A key ([uint64_t], [cl_ulong]) is a [Z] in [0, 2^64); a count
      ([uint32_t], [cl_uint]) is a [Z] in [0, 2^32).  Unsigned wrap-around is
      written out with [u32] and [u64].
    - [std::vector] and device buffers are [list Z]; [v[i]] is [elt v i] and
      [v[i] = x] is [<[i:=x]> v].  Every index the host code uses is in range,
      so the out-of-range behaviour of the model (read 0, write nothing) is
      never exercised by it.
    - Loop counters and element counts are [nat].
    - Every OpenCL call is taken to succeed and to do what it is asked: the
      model covers the runs in which no [assert] fires.  In particular a stage
      writes whichever key buffer it is given as destination; [buf_in] is
      created [CL_MEM_READ_ONLY] and is the destination of every second pass,
      a write that OpenCL leaves undefined and that the model performs.
    - One failure does not depend on the device: [clCreateBuffer] refuses a
      size of 0.  [run_opencl_radix_checked] adds it, with the assertions of
      lines 84-96, to the run above. *)

From Stdlib Require Import ZArith Lia.
From stdpp Require Import base numbers sorting strings functions list.

(** * The program *)

(** ** Machine integers *)

Definition u32 (z : Z) : Z := (z mod 2 ^ 32)%Z.
Definition u64 (z : Z) : Z := (z mod 2 ^ 64)%Z.

Definition is_u32 (z : Z) : Prop := (0 ≤ z < 2 ^ 32)%Z.
Definition is_u64 (z : Z) : Prop := (0 ≤ z < 2 ^ 64)%Z.

(** The object representation of an unsigned integer on the (little-endian)
    host: [n] bytes, least significant first. *)
Fixpoint le_bytes (n : nat) (z : Z) : list Z :=
  match n with
  | O => []
  | S n' => (z mod 256)%Z :: le_bytes n' (z / 256)%Z
  end.

Fixpoint le_value (bs : list Z) : Z :=
  match bs with
  | [] => 0%Z
  | b :: bs' => (b + 256 * le_value bs')%Z
  end.

(** [clSetKernelArg(k, i, sizeof(uint32_t), &N)] with [size_t N]: the runtime
    copies the first four bytes found at [&N]. *)
Definition kernel_arg_u32 (N : nat) : Z :=
  le_value (take 4 (le_bytes 8 (Z.of_nat N))).

(** ** Constants of [run_opencl_radix] *)

Definition BITS : nat := 8.
Definition RADIX : nat := 2 ^ BITS.
Definition LOCAL_SZ : nat := 256.
Definition PASSES : nat := (64 + BITS - 1) / BITS.

(** Line 106: [uint32_t shift = pass * BITS]. *)
Definition shift_of (pass : nat) : Z := u32 (Z.of_nat (pass * BITS)).

(** [size_t] arithmetic, modulo 2^64. *)
Definition NUM_GROUPS (N : nat) : nat :=
  Z.to_nat (u64 (Z.of_nat N + Z.of_nat LOCAL_SZ - 1) / Z.of_nat LOCAL_SZ).
Definition GLOBAL_SZ (N : nat) : nat :=
  Z.to_nat (u64 (Z.of_nat (NUM_GROUPS N) * Z.of_nat LOCAL_SZ)).

(** [sizeof(cl_uint)] and [sizeof(cl_ulong)] *)
Definition SZ_UINT : Z := 4.
Definition SZ_ULONG : Z := 8.

(** ** Arrays *)

Definition elt (v : list Z) (i : nat) : Z := default 0%Z (v !! i).

Definition sumZ (l : list Z) : Z := foldr Z.add 0%Z l.

(** ** Host offset computation (opencl_sort.cpp, lines 124-141) *)

(** Lines 126-128: [sum = 0; for g: sum += gh[g * RADIX + d]]. *)
Definition bucket_sum (gh : list Z) (NG d : nat) : Z :=
  foldl (λ sum g, u32 (sum + elt gh (g * RADIX + d))) 0%Z (seq 0 NG).

(** Lines 125-130. *)
Definition compute_bt (gh : list Z) (NG : nat) (bt : list Z) : list Z :=
  foldl (λ bt d, <[d := bucket_sum gh NG d]> bt) bt (seq 0 RADIX).

(** Lines 131-132. *)
Definition compute_pg (bt pg : list Z) : list Z :=
  foldl (λ pg d, <[d := u32 (elt pg (d - 1) + elt bt (d - 1))]> pg)
        (<[0 := 0%Z]> pg) (seq 1 (RADIX - 1)).

(** Lines 137-140: the inner loop carries the array and the running sum. *)
Definition go_column (gh : list Z) (NG d : nat) (go : list Z) : list Z * Z :=
  foldl (λ '(go, sum) g,
           (<[g * RADIX + d := sum]> go, u32 (sum + elt gh (g * RADIX + d))))
        (go, 0%Z) (seq 0 NG).

(** Lines 135-141. *)
Definition compute_go (gh : list Z) (NG : nat) (go : list Z) : list Z :=
  foldl (λ go d, (go_column gh NG d go).1) go (seq 0 RADIX).

(** ** The two device stages

    The host depends on the stages only through what they do to the buffers
    they are launched on.  A stage reads its scalar arguments [N] and [shift]
    as 32-bit values. *)

Class Stages := {
  (** [build_group_histogram(in, gh, N, shift)]: the new contents of [gh] *)
  build_group_histogram : list Z → list Z → Z → Z → list Z;
  (** [scatter_stable(in, out, pg, go, N, shift)]: the new contents of [out] *)
  scatter_stable : list Z → list Z → list Z → list Z → Z → Z → list Z
}.

(** Modelled from the spec: the digit window of section 3, the [BITS]-wide
    slice of the bit pattern of [key] that starts at bit offset [shift] (as
    [(src[i] >> shift) & (BUCKETS - 1)] in radix_sort.cpp). *)
Definition digit (shift : Z) (key : Z) : nat :=
  Z.to_nat (Z.land (Z.shiftr key shift) (Z.of_nat RADIX - 1)).

(** Modelled from the spec: the group of section 3, a fixed-size contiguous
    part of the index range: [LOCAL_SZ] consecutive indices, fewer in the last
    group. *)
Definition group_keys (keys : list Z) (g : nat) : list Z :=
  take LOCAL_SZ (drop (g * LOCAL_SZ) keys).

(** Modelled from the spec: the count of section 3, the number of keys whose
    current digit is [d]. *)
Definition count_digit (shift : Z) (d : nat) (keys : list Z) : nat :=
  length (filter (λ key, digit shift key = d) keys).

(** Modelled from the spec: kernels/radix_kernels.cl is not among the source
    files, so the Histogram Stage follows section 4.2 of the design document:
    each group counts, independently over its own index range, the keys whose
    current digit has each value.  The counts are added to what the histogram
    storage holds (section 4.1, step 2: without the reset, stale values would
    leak).  Lanes at or past the element count the stage received count
    nothing. *)
Definition spec_histogram (src gh : list Z) (n shift : Z) : list Z :=
  let keys := take (Z.to_nat n) src in
  imap (λ k c, u32 (c + Z.of_nat
          (count_digit shift (k mod RADIX) (group_keys keys (k / RADIX))))) gh.

(** Modelled from the spec: the rank of section 4.3, the position of the key
    at index [i] among the keys of its group that have the same digit, scanned
    in increasing index order, 0-based. *)
Definition rank_in_group (shift : Z) (keys : list Z) (i : nat) (key : Z) : nat :=
  count_digit shift (digit shift key)
    (take (i mod LOCAL_SZ) (group_keys keys (i / LOCAL_SZ))).

(** Modelled from the spec: the destination index of section 4.3,
    [pg[digit(key)] + go[group(key), digit(key)] + rank]. *)
Definition placement (shift : Z) (keys pg go : list Z) (i : nat) (key : Z) : nat :=
  Z.to_nat (elt pg (digit shift key)
            + elt go ((i / LOCAL_SZ) * RADIX + digit shift key)
            + Z.of_nat (rank_in_group shift keys i key)).

(** Modelled from the spec: what the lane of index [i] does in the scatter
    stage of section 4.3. *)
Definition scatter_lane (shift : Z) (keys pg go : list Z)
    (dst : list Z) (i : nat) : list Z :=
  match keys !! i with
  | Some key => <[placement shift keys pg go i key := key]> dst
  | None => dst
  end.

(** Modelled from the spec: kernels/radix_kernels.cl is not among the source
    files, so the Scatter Stage follows section 4.3 of the design document:
    every key is written to index
    [pg[digit(key)] + go[group(key), digit(key)] + rank].  Lanes at or past
    the element count the stage received write nothing. *)
Definition spec_scatter (src dst pg go : list Z) (n shift : Z) : list Z :=
  let keys := take (Z.to_nat n) src in
  foldl (scatter_lane shift keys pg go) dst (seq 0 (Z.to_nat n)).

(** Modelled from the spec: the two stages of sections 4.2 and 4.3, in place
    of the kernels of kernels/radix_kernels.cl. *)
Definition spec_stages : Stages :=
  {| build_group_histogram := spec_histogram;
     scatter_stable := spec_scatter |}.

(** ** Machine state *)

(** The five buffers [clCreateBuffer] returns, in allocation order (lines
    82-96): the two key buffers, the histogram, the global prefix and the
    group offsets. *)
Inductive cl_mem := KeysA | KeysB | HistMem | PrefixMem | OffsetMem.

Global Instance cl_mem_eq_dec : EqDecision cl_mem.
Proof. solve_decision. Defined.

Inductive direction := HostToDevice | DeviceToHost.

Global Instance direction_eq_dec : EqDecision direction.
Proof. solve_decision. Defined.

(** One movement of data between host and device memory. *)
Record transfer := Transfer { t_dir : direction; t_bytes : Z }.

(** A [std::vector<uint64_t>] object of the caller, by identity. *)
Definition vec_ref := nat.

Record state := State {
  (** the caller's vectors *)
  vectors : vec_ref → list Z;
  (** the file-scope counters *)
  total_host_to_device : Z;
  total_device_to_host : Z;
  (** device memory *)
  dev : cl_mem → list Z;
  (** every data movement performed so far, oldest first (not program state) *)
  transfers : list transfer;
  (** locals of [run_opencl_radix] *)
  buf_in : cl_mem;
  buf_out : cl_mem;
  gh : list Z;
  bt : list Z;
  pg : list Z;
  go : list Z
}.

Definition buf_gh : cl_mem := HistMem.
Definition buf_pg : cl_mem := PrefixMem.
Definition buf_go : cl_mem := OffsetMem.

(** Contents that the program does not determine: freshly allocated device
    buffers, and host memory past the end of a vector. *)
Record unspecified := Unspecified {
  dev_garbage : cl_mem → nat → Z;
  host_garbage : nat → Z
}.

(** Copying [data] over the start of [old]. *)
Definition blit (data old : list Z) : list Z := data ++ drop (length data) old.

(** Lines 15-20.  The counter is bumped, then the whole of [data] is written
    at offset 0 of [buf]. *)
Definition ENQUEUE_WRITE (buf : cl_mem) (sz : Z) (data : list Z) (s : state) : state :=
  State (vectors s)
        (u64 (total_host_to_device s + sz)) (total_device_to_host s)
        (<[buf := blit data (dev s buf)]> (dev s))
        (transfers s ++ [Transfer HostToDevice sz])
        (buf_in s) (buf_out s) (gh s) (bt s) (pg s) (go s).

(** Lines 22-27.  The counter is bumped, then [buf] is read from offset 0 over
    the host array [host]; the new contents of the host array are returned. *)
Definition ENQUEUE_READ (buf : cl_mem) (sz : Z) (host : list Z) (s : state)
    : state * list Z :=
  (State (vectors s)
         (total_host_to_device s) (u64 (total_device_to_host s + sz))
         (dev s)
         (transfers s ++ [Transfer DeviceToHost sz])
         (buf_in s) (buf_out s) (gh s) (bt s) (pg s) (go s),
   blit (take (length host) (dev s buf)) host).

Definition set_dev (buf : cl_mem) (data : list Z) (s : state) : state :=
  State (vectors s) (total_host_to_device s) (total_device_to_host s)
        (<[buf := data]> (dev s)) (transfers s)
        (buf_in s) (buf_out s) (gh s) (bt s) (pg s) (go s).

Definition set_arrays (gh' bt' pg' go' : list Z) (s : state) : state :=
  State (vectors s) (total_host_to_device s) (total_device_to_host s)
        (dev s) (transfers s) (buf_in s) (buf_out s) gh' bt' pg' go'.

Definition set_vector (r : vec_ref) (v : list Z) (s : state) : state :=
  State (<[r := v]> (vectors s))
        (total_host_to_device s) (total_device_to_host s)
        (dev s) (transfers s) (buf_in s) (buf_out s)
        (gh s) (bt s) (pg s) (go s).

(** Line 160: [std::swap(buf_in, buf_out)]. *)
Definition swap_buffers (s : state) : state :=
  State (vectors s) (total_host_to_device s) (total_device_to_host s)
        (dev s) (transfers s) (buf_out s) (buf_in s)
        (gh s) (bt s) (pg s) (go s).

(** Size in bytes of a host array of [cl_uint], in [size_t] arithmetic. *)
Definition bytes_uint (v : list Z) : Z := u64 (Z.of_nat (length v) * SZ_UINT).

(** ** The pass loop (lines 105-161) *)

Section orchestrator.
Context `{Stages}.

(** Lines 113-118: the histogram stage is launched over [GLOBAL_SZ N] lanes
    in groups of [LOCAL_SZ]; the count it is given is the first four bytes
    of [N]. *)
Definition launch_histogram (N : nat) (shift : Z) (s : state) : state :=
  set_dev buf_gh
    (build_group_histogram (dev s (buf_in s)) (dev s buf_gh)
       (kernel_arg_u32 N) shift) s.

(** Lines 150-157: the scatter stage, launched the same way on the uploaded
    [pg] and [go]. *)
Definition launch_scatter (N : nat) (shift : Z) (s : state) : state :=
  set_dev (buf_out s)
    (scatter_stable (dev s (buf_in s)) (dev s (buf_out s))
       (dev s buf_pg) (dev s buf_go) (kernel_arg_u32 N) shift) s.

Definition pass_body (N : nat) (zero : list Z) (s : state) (pass : nat) : state :=
  let shift := shift_of pass in
  let s := ENQUEUE_WRITE buf_gh (bytes_uint zero) zero s in
  let s := launch_histogram N shift s in
  let '(s, gh') := ENQUEUE_READ buf_gh (bytes_uint (gh s)) (gh s) s in
  let bt' := compute_bt gh' (NUM_GROUPS N) (bt s) in
  let pg' := compute_pg bt' (pg s) in
  let go' := compute_go gh' (NUM_GROUPS N) (go s) in
  let s := set_arrays gh' bt' pg' go' s in
  let s := ENQUEUE_WRITE buf_pg (bytes_uint (pg s)) (pg s) s in
  let s := ENQUEUE_WRITE buf_go (bytes_uint (go s)) (go s) s in
  let s := launch_scatter N shift s in
  swap_buffers s.

(** The state after the first [k] passes. *)
Definition passes (N : nat) (zero : list Z) (s : state) (k : nat) : state :=
  foldl (pass_body N zero) s (seq 0 k).

(** ** Entry and exit of [run_opencl_radix] *)

(** Reading [n] elements starting at [v.data()]. *)
Definition host_read (U : unspecified) (v : list Z) (n : nat) : list Z :=
  (λ i, default (host_garbage U i) (v !! i)) <$> seq 0 n.

Definition fresh_buffer (U : unspecified) (m : cl_mem) (len : nat) : list Z :=
  dev_garbage U m <$> seq 0 len.

(** Lines 47-103: the reference copy is taken and sorted, [out] is resized,
    the buffers are created ([buf_in] with a copy of the input, which moves
    [N * sizeof(cl_ulong)] bytes to the device), the host arrays are
    zero-filled. *)
Definition cpu_reference (input : list Z) : list Z := merge_sort Z.le input.

Definition setup (U : unspecified) (in_ out : vec_ref) (N : nat) (s : state) : state :=
  let s := set_vector out (resize N 0%Z (vectors s out)) s in
  let cells := NUM_GROUPS N * RADIX in
  State (vectors s) (total_host_to_device s) (total_device_to_host s)
        (λ m, match m with
              | KeysA => host_read U (vectors s in_) N
              | KeysB => fresh_buffer U KeysB N
              | HistMem => fresh_buffer U HistMem cells
              | PrefixMem => fresh_buffer U PrefixMem RADIX
              | OffsetMem => fresh_buffer U OffsetMem cells
              end)
        (transfers s ++ [Transfer HostToDevice (u64 (Z.of_nat N * SZ_ULONG))])
        KeysA KeysB
        (replicate cells 0%Z) (replicate RADIX 0%Z)
        (replicate RADIX 0%Z) (replicate cells 0%Z).

(** Lines 163-165. *)
Definition read_back (out : vec_ref) (N : nat) (s : state) : state :=
  let '(s, data) :=
    ENQUEUE_READ (buf_in s) (u64 (Z.of_nat N * SZ_ULONG)) (vectors s out) s in
  set_vector out data s.
End orchestrator.

(** What the process prints, and how the call ends. *)
Inductive output :=
  | Cout (text : string)
  | CoutNum (value : Z)
  | Cerr (text : string).

Inductive termination := Returned | Exited (status : Z).

Record result := Result {
  final : state;
  console : list output;
  term : termination
}.

(** Lines 167-175. *)
Definition verify_report (out cpu : list Z) (s : state) : list output * termination :=
  if bool_decide (out ≠ cpu) then
    ([Cerr "Mismatch!\n"], Exited 1)
  else
    ([Cout "PASS\n";
      Cout "Total H→D bytes: "; CoutNum (total_host_to_device s); Cout "\n";
      Cout "Total D→H bytes: "; CoutNum (total_device_to_host s); Cout "\n"],
     Returned).

Definition run_opencl_radix `{Stages} (U : unspecified)
    (in_ out : vec_ref) (N : nat) (s : state) : result :=
  let cpu := cpu_reference (vectors s in_) in
  let s := setup U in_ out N s in
  let zero := replicate (NUM_GROUPS N * RADIX) 0%Z in
  let s := passes N zero s PASSES in
  let s := read_back out N s in
  let '(printed, t) := verify_report (vectors s out) cpu s in
  Result s printed t.

(** ** The assertions on the buffers (lines 82-96)

    Of the ways in which [clCreateBuffer] can fail one is the same on every
    device: the OpenCL API returns [CL_INVALID_BUFFER_SIZE] when the size it
    is asked for is 0.  The other failures (the limits and the free memory of
    a device) are left out. *)

Inductive cl_int := CL_SUCCESS | CL_INVALID_BUFFER_SIZE.

Global Instance cl_int_eq_dec : EqDecision cl_int.
Proof. solve_decision. Defined.

(** What [clCreateBuffer] stores in [err] for a buffer of [size] bytes. *)
Definition clCreateBuffer (size : Z) : cl_int :=
  if decide (size = 0%Z) then CL_INVALID_BUFFER_SIZE else CL_SUCCESS.

(** A buffer that has been created, with the data its creation moved. *)
Definition created (m : cl_mem) (contents : list Z) (moved : list transfer)
    (s : state) : state :=
  State (vectors s) (total_host_to_device s) (total_device_to_host s)
        (<[m := contents]> (dev s)) (transfers s ++ moved)
        (buf_in s) (buf_out s) (gh s) (bt s) (pg s) (go s).

(** How a call ends: an [assert] fails at a line and the process is aborted
    in the state it is in, or the call runs to its end. *)
Inductive outcome :=
  | Aborted (line : nat) (s : state)
  | Finished (r : result).

(** Lines 47-96 with their assertions, then the rest of the call.  The sizes
    are computed in [size_t]. *)
Definition run_opencl_radix_checked `{Stages} (U : unspecified)
    (in_ out : vec_ref) (N : nat) (s : state) : outcome :=
  let keys_size := u64 (Z.of_nat N * SZ_ULONG) in
  let cells := NUM_GROUPS N * RADIX in
  let cells_size := u64 (u64 (Z.of_nat (NUM_GROUPS N) * Z.of_nat RADIX) * SZ_UINT) in
  let s0 := set_vector out (resize N 0%Z (vectors s out)) s in
  if decide (clCreateBuffer keys_size ≠ CL_SUCCESS) then Aborted 84 s0 else
  let s1 := created KeysA (host_read U (vectors s0 in_) N)
              [Transfer HostToDevice keys_size] s0 in
  if decide (clCreateBuffer keys_size ≠ CL_SUCCESS) then Aborted 87 s1 else
  let s2 := created KeysB (fresh_buffer U KeysB N) [] s1 in
  if decide (clCreateBuffer cells_size ≠ CL_SUCCESS) then Aborted 90 s2 else
  let s3 := created HistMem (fresh_buffer U HistMem cells) [] s2 in
  if decide (clCreateBuffer (u64 (Z.of_nat RADIX * SZ_UINT)) ≠ CL_SUCCESS)
  then Aborted 93 s3 else
  let s4 := created PrefixMem (fresh_buffer U PrefixMem RADIX) [] s3 in
  if decide (clCreateBuffer cells_size ≠ CL_SUCCESS) then Aborted 96 s4 else
  Finished (run_opencl_radix U in_ out N s).

(** * Notions used to state and prove the properties *)

(** The histogram column of digit [d]: one count per group, for the first
    [NG] groups. *)
Definition column (hist : list Z) (d NG : nat) : list Z :=
  (λ g, elt hist (g * RADIX + d)) <$> seq 0 NG.

(** A stable distribution by a digit function [f]: the elements of [l] whose
    digit is below [m], bucket after bucket, each bucket in the order
    of [l]. *)
Fixpoint buckets {A} (f : A → nat) (m : nat) (l : list A) : list A :=
  match m with
  | O => []
  | S m' => buckets f m' l ++ filter (λ x, f x = m') l
  end.

(** Where a stable distribution puts the element [x] found at index [i]. *)
Definition slot {A} (f : A → nat) (l : list A) (i : nat) (x : A) : nat :=
  length (filter (λ y, f y < f x) l)
  + length (filter (λ y, f y = f x) (take i l)).

(** Writing the element at index [i] to its slot. *)
Definition place {A} (f : A → nat) (l : list A) (dst : list A) (i : nat) : list A :=
  match l !! i with
  | Some x => <[slot f l i x := x]> dst
  | None => dst
  end.

(** Least-significant-digit radix sort on lists: pass [p] distributes on the
    digit at [shift_of p]. *)
Definition lsd_pass (p : nat) (l : list Z) : list Z :=
  buckets (digit (shift_of p)) RADIX l.

Definition lsd (k : nat) (l : list Z) : list Z :=
  foldl (λ l p, lsd_pass p l) l (seq 0 k).

(** An element count for which [N + LOCAL_SZ - 1] does not wrap. *)
Definition fits_size_t (N : nat) : Prop := (Z.of_nat N + 255 < 2 ^ 64)%Z.

(** The number of keys the stages work on. *)
Definition stage_count (N : nat) : nat := Z.to_nat (kernel_arg_u32 N).

(** One of the two key buffers. *)
Definition key_buffer (m : cl_mem) : Prop := m = KeysA ∨ m = KeysB.

(** Which key buffer is the source, and which the destination, of pass [k]. *)
Definition src_of (k : nat) : cl_mem := if Nat.even k then KeysA else KeysB.
Definition dst_of (k : nat) : cl_mem := if Nat.even k then KeysB else KeysA.

(** The data movements of one pass. *)
Definition pass_transfers (cells : nat) : list transfer :=
  [Transfer HostToDevice (u64 (Z.of_nat cells * SZ_UINT));
   Transfer DeviceToHost (u64 (Z.of_nat cells * SZ_UINT));
   Transfer HostToDevice (u64 (Z.of_nat RADIX * SZ_UINT));
   Transfer HostToDevice (u64 (Z.of_nat cells * SZ_UINT))].

(** Bytes a pass uploads and downloads. *)
Definition pass_upload (cells : nat) : Z :=
  (u64 (Z.of_nat cells * SZ_UINT) + u64 (Z.of_nat RADIX * SZ_UINT)
   + u64 (Z.of_nat cells * SZ_UINT))%Z.
Definition pass_download (cells : nat) : Z := u64 (Z.of_nat cells * SZ_UINT).

(** Total size of the movements in one direction. *)
Definition bytes_moved (d : direction) (log : list transfer) : Z :=
  sumZ (t_bytes <$> filter (λ t, t_dir t = d) log).

(** Sizes and roles that every pass finds and leaves. *)
Record ready (N : nat) (s : state) : Prop := Ready {
  ready_in : key_buffer (buf_in s);
  ready_out : key_buffer (buf_out s);
  ready_distinct : buf_in s ≠ buf_out s;
  ready_keys_a : length (dev s KeysA) = N;
  ready_keys_b : length (dev s KeysB) = N;
  ready_dev_gh : length (dev s buf_gh) = NUM_GROUPS N * RADIX;
  ready_dev_pg : length (dev s buf_pg) = RADIX;
  ready_dev_go : length (dev s buf_go) = NUM_GROUPS N * RADIX;
  ready_gh : length (gh s) = NUM_GROUPS N * RADIX;
  ready_bt : length (bt s) = RADIX;
  ready_pg : length (pg s) = RADIX;
  ready_go : length (go s) = NUM_GROUPS N * RADIX
}.

(** The input of a call: the vector has [N] elements, all 64-bit, and [N] is
    below the 2^32 that the 32-bit counts of the design can hold. *)
Record valid_input (in_ : vec_ref) (N : nat) (s : state) : Prop := ValidInput {
  valid_keys : Forall is_u64 (vectors s in_);
  valid_size : N = length (vectors s in_);
  valid_count : (Z.of_nat N < 2 ^ 32)%Z
}.

Section observations.
Context `{Stages}.

(** What the histogram launch of a pass leaves in [buf_gh], and what the host
    then reads into [gh]. *)
Definition hist_mem (N : nat) (zero : list Z) (s : state) (pass : nat) : list Z :=
  build_group_histogram (dev s (buf_in s))
    (blit zero (dev s buf_gh)) (kernel_arg_u32 N) (shift_of pass).

Definition gh_after (N : nat) (zero : list Z) (s : state) (pass : nat) : list Z :=
  blit (take (length (gh s)) (hist_mem N zero s pass)) (gh s).

(** The state at the start of pass [k] of a call (after the loop, for
    [k = PASSES]). *)
Definition loop_state (U : unspecified) (in_ out : vec_ref) (N : nat)
    (s : state) (k : nat) : state :=
  passes N (replicate (NUM_GROUPS N * RADIX) 0%Z) (setup U in_ out N s) k.

(** The index to which the scatter stage of pass [p] moves the key it finds at
    index [i] of the source buffer. *)
Definition placed (U : unspecified) (in_ out : vec_ref) (N : nat)
    (s : state) (p i : nat) : nat :=
  let sp := loop_state U in_ out N s p in
  let sp' := loop_state U in_ out N s (S p) in
  let src := dev sp (buf_in sp) in
  placement (shift_of p) (take (stage_count N) src)
    (dev sp' buf_pg) (dev sp' buf_go) i (elt src i).

(** Where the key that starts at index [i] of the input is after [k] passes. *)
Definition tracked (U : unspecified) (in_ out : vec_ref) (N : nat)
    (s : state) (k i : nat) : nat :=
  foldl (λ pos p, placed U in_ out N s p pos) i (seq 0 k).
End observations.

(** ** Concrete calls *)

Definition no_garbage : unspecified := Unspecified (λ _ _, 0%Z) (λ _, 0%Z).

(** A program state with the vector [v] as object 0 and [w] as every other
    object, the counters at 0 and nothing moved yet. *)
Definition fresh_state (v w : list Z) : state :=
  State (λ r, if decide (r = 0) then v else w) 0 0 (λ _, []) []
        KeysA KeysB [] [] [] [].

Definition sample : state := fresh_state [5; 3; 3; 1]%Z [].

(** 300 keys, in two work-groups. *)
Definition two_groups : state :=
  fresh_state (replicate 256 3%Z ++ replicate 44 7%Z) [].

(** ** Reduction behaviour and proof tactics *)

Global Arguments compute_bt : simpl never.
Global Arguments compute_pg : simpl never.
Global Arguments compute_go : simpl never.
Global Arguments bytes_uint : simpl never.
Global Arguments blit : simpl never.
Global Arguments kernel_arg_u32 : simpl never.
Global Arguments shift_of : simpl never.
Global Arguments NUM_GROUPS : simpl never.
Global Arguments RADIX : simpl never.
Global Arguments PASSES : simpl never.
Global Arguments u64 : simpl never.
Global Arguments u32 : simpl never.

(** Reduce the state transformers and projections, nothing else. *)
Ltac state_cbn :=
  cbn [pass_body ENQUEUE_WRITE ENQUEUE_READ launch_histogram launch_scatter
       set_dev set_arrays set_vector swap_buffers setup read_back
       vectors total_host_to_device total_device_to_host dev transfers
       buf_in buf_out gh bt pg go fst snd buf_gh buf_pg buf_go].

(** Read a device buffer through the updates made to device memory. *)
Ltac dev_lookup :=
  repeat first [rewrite fn_lookup_insert | rewrite fn_lookup_insert_ne by done].

(** * The single-threaded sorts of radix_sort.cpp, at [T = uint64_t] *)

Module Cpu.

(** Lines 11-13. *)
Definition BITS : nat := 11.
Definition BUCKETS : nat := 2 ^ BITS.
Definition PASSES : nat := (8 * 8 + BITS - 1) / BITS.

(** Line 21: [unsigned shift = pass * BITS]. *)
Definition shift_of (pass : nat) : Z := u32 (Z.of_nat (pass * BITS)).

(** Lines 24 and 32: [uint32_t bucket = (src[i] >> shift) & (BUCKETS - 1)]. *)
Definition bucket_of (shift key : Z) : nat :=
  Z.to_nat (u32 (Z.land (Z.shiftr key shift) (Z.of_nat BUCKETS - 1))).

(** An array of keys handed over as a [T*], by identity: two pointers are the
    same array or two arrays that do not overlap.  Memory maps every array to
    its contents. *)
Definition array_ref := nat.
Definition memory := array_ref → list Z.

(** Lines 22-26: the histogram is cleared, then every key of [src] bumps the
    count of its bucket, a [uint32_t]. *)
Definition count_keys (keys : list Z) (N : nat) (shift : Z) (hist : list Z) : list Z :=
  foldl (λ hist i,
           let bucket := bucket_of shift (elt keys i) in
           <[bucket := u32 (elt hist bucket + 1)]> hist)
        ((λ _, 0%Z) <$> hist) (seq 0 N).

(** Lines 27-30: [offsets] is a vector of [size_t]. *)
Definition prefix_offsets (hist offsets : list Z) : list Z :=
  foldl (λ offsets b, <[b + 1 := u64 (elt offsets b + elt hist b)]> offsets)
        (<[0 := 0%Z]> offsets) (seq 0 BUCKETS).

(** Lines 31-34: [dst[offsets[bucket]++] = src[i]].  The key is read from
    memory at every step, so that a [dst] that is [src] is what it is in the
    source. *)
Definition scatter_step (src dst : array_ref) (shift : Z)
    (st : memory * list Z) (i : nat) : memory * list Z :=
  let '(m, offsets) := st in
  let key := elt (m src) i in
  let bucket := bucket_of shift key in
  let k := elt offsets bucket in
  (<[dst := <[Z.to_nat k := key]> (m dst)]> m,
   <[bucket := u64 (k + 1)]> offsets).

Definition scatter (src dst : array_ref) (N : nat) (shift : Z)
    (m : memory) (offsets : list Z) : memory * list Z :=
  foldl (scatter_step src dst shift) (m, offsets) (seq 0 N).

(** The variables of [radix_sort_single_lsb] that the loop changes. *)
Record frame := Frame {
  mem : memory;
  src : array_ref;
  dst : array_ref;
  hist : list Z;
  offsets : list Z
}.

(** Lines 20-36: one pass, ended by [std::swap(src, dst)]. *)
Definition pass_body (N : nat) (f : frame) (pass : nat) : frame :=
  let shift := shift_of pass in
  let hist' := count_keys (mem f (src f)) N shift (hist f) in
  let offsets' := prefix_offsets hist' (offsets f) in
  let '(m', offsets'') := scatter (src f) (dst f) N shift (mem f) offsets' in
  Frame m' (dst f) (src f) hist' offsets''.

(** [std::copy(first, first + N, out)] and the [std::move] of the same shape:
    element after element, from the front. *)
Definition copy_keys (from to : array_ref) (N : nat) (m : memory) : memory :=
  foldl (λ m i, <[to := <[i := elt (m from) i]> (m to)]> m) m (seq 0 N).

(** The first [k] rounds of the loop of line 20. *)
Definition passes (N : nat) (f : frame) (k : nat) : frame :=
  foldl (pass_body N) f (seq 0 k).

(** Lines 37-39: the result is copied to [out] unless it is there. *)
Definition copy_back (out : array_ref) (N : nat) (f : frame) : memory :=
  if bool_decide (src f ≠ out) then copy_keys (src f) out N (mem f) else mem f.

(** Lines 10-40. *)
Definition radix_sort_single_lsb (in_ out : array_ref) (N : nat) (m : memory) : memory :=
  let f := Frame m in_ out (replicate BUCKETS 0%Z) (replicate (BUCKETS + 1) 0%Z) in
  copy_back out N (passes N f PASSES).

(** Lines 45-49: the body there is, the sort being left to do. *)
Definition radix_sort_single_msb (in_ out : array_ref) (N : nat) (m : memory) : memory :=
  copy_keys in_ out N m.

(** Lines 62-67, likewise; [threads] is not used. *)
Definition radix_sort_multi_threaded (in_ out : array_ref) (N threads : nat)
    (m : memory) : memory :=
  copy_keys in_ out N m.

End Cpu.

(** The sum of all the counts of a histogram of [NG] groups, and of those of
    the digits below [d]. *)
Definition digits_total (hist : list Z) (NG d : nat) : Z :=
  sumZ ((λ d', sumZ (column hist d' NG)) <$> seq 0 d).

Definition hist_total (hist : list Z) (NG : nat) : Z :=
  digits_total hist NG RADIX.

(** Least-significant-digit radix sort on lists, in the digits of
    [radix_sort_single_lsb]. *)
Definition cpu_lsd_pass (p : nat) (l : list Z) : list Z :=
  buckets (Cpu.bucket_of (Cpu.shift_of p)) Cpu.BUCKETS l.

Definition cpu_lsd (k : nat) (l : list Z) : list Z :=
  foldl (λ l p, cpu_lsd_pass p l) l (seq 0 k).

(** The variables of [radix_sort_single_lsb] after [k] passes. *)
Definition lsb_after (in_ out : Cpu.array_ref) (N : nat) (m : Cpu.memory)
    (k : nat) : Cpu.frame :=
  Cpu.passes N
    (Cpu.Frame m in_ out (replicate Cpu.BUCKETS 0%Z)
               (replicate (Cpu.BUCKETS + 1) 0%Z)) k.

(** Two arrays [a] and [b], at the references 0 and 1. *)
Definition two_arrays (a b : list Z) : Cpu.memory :=
  λ r, if decide (r = 0) then a else if decide (r = 1) then b else [].

Definition cpu_sample : Cpu.memory :=
  two_arrays [5; 3; 3; 1; 9]%Z [7; 7; 7; 7; 7; 7]%Z.

Global Arguments Cpu.BUCKETS : simpl never.
Global Arguments Cpu.PASSES : simpl never.
Global Arguments Cpu.shift_of : simpl never.
Global Arguments Cpu.bucket_of : simpl never.
Global Arguments Cpu.count_keys : simpl never.
Global Arguments Cpu.prefix_offsets : simpl never.

(** * Proofs *)

(** ** Loops over [seq] *)

Lemma foldl_seq_invariant {A} (P : nat → A → Prop) (f : A → nat → A) a j n :
  P j a →
  (∀ i x, j ≤ i < j + n → P i x → P (S i) (f x i)) →
  P (j + n) (foldl f a (seq j n)).
Proof.
  revert a j. induction n as [|n IH]; intros a j Ha Hstep; simpl.
  - by rewrite Nat.add_0_r.
  - replace (j + S n) with (S j + n) by lia.
    apply IH.
    + apply Hstep; [lia | done].
    + intros i x Hi. apply Hstep. lia.
Qed.

Lemma RADIX_eq : RADIX = 256.
Proof. reflexivity. Qed.

Lemma PASSES_eq : PASSES = 8.
Proof. reflexivity. Qed.

Lemma elt_lookup (v : list Z) i x : v !! i = Some x → elt v i = x.
Proof. unfold elt. by intros ->. Qed.

Lemma elt_insert_eq (v : list Z) i x : i < length v → elt (<[i:=x]> v) i = x.
Proof. intros. unfold elt. by rewrite list_lookup_insert_eq. Qed.

Lemma elt_insert_ne (v : list Z) i j x : i ≠ j → elt (<[i:=x]> v) j = elt v j.
Proof. intros. unfold elt. by rewrite list_lookup_insert_ne. Qed.

Lemma elt_replicate n i : elt (replicate n 0%Z) i = 0%Z.
Proof.
  unfold elt. destruct (replicate n 0%Z !! i) as [x|] eqn:E; [|done].
  by apply lookup_replicate in E as [-> _].
Qed.

Lemma u32_range z : is_u32 (u32 z).
Proof. unfold is_u32, u32. apply Z.mod_pos_bound. lia. Qed.

Lemma u32_small z : is_u32 z → u32 z = z.
Proof. unfold is_u32, u32. intros. by apply Z.mod_small. Qed.

Lemma u32_add_l a b : u32 (u32 a + b) = u32 (a + b).
Proof. unfold u32. by rewrite Zplus_mod_idemp_l. Qed.

Lemma u64_add_l a b : u64 (u64 a + b) = u64 (a + b).
Proof. unfold u64. by rewrite Zplus_mod_idemp_l. Qed.

Lemma u64_add3 a b c : u64 (u64 a + b + c) = u64 (a + b + c).
Proof. by rewrite <- Z.add_assoc, u64_add_l, Z.add_assoc. Qed.

Lemma u64_range z : is_u64 (u64 z).
Proof. unfold is_u64, u64. apply Z.mod_pos_bound. lia. Qed.

Lemma u64_small z : is_u64 z → u64 z = z.
Proof. unfold is_u64, u64. intros. by apply Z.mod_small. Qed.

(** ** The host offset computation, for any histogram contents *)

Lemma column_S hist d NG :
  column hist d (S NG) = column hist d NG ++ [elt hist (NG * RADIX + d)].
Proof. unfold column. by rewrite seq_S, fmap_app. Qed.

Lemma sumZ_app l k : sumZ (l ++ k) = (sumZ l + sumZ k)%Z.
Proof. unfold sumZ. induction l; simpl; lia. Qed.

Lemma sumZ_snoc l x : sumZ (l ++ [x]) = (sumZ l + x)%Z.
Proof. rewrite sumZ_app. simpl. lia. Qed.

Lemma bucket_sum_spec hist NG d :
  bucket_sum hist NG d = u32 (sumZ (column hist d NG)).
Proof.
  unfold bucket_sum.
  induction NG as [|NG IH].
  - reflexivity.
  - rewrite seq_S, foldl_snoc, column_S, sumZ_snoc, IH. simpl.
    apply u32_add_l.
Qed.

Lemma compute_bt_spec hist NG tot :
  RADIX ≤ length tot →
  length (compute_bt hist NG tot) = length tot ∧
  ∀ d, d < RADIX → elt (compute_bt hist NG tot) d = bucket_sum hist NG d.
Proof.
  intros Hlen. unfold compute_bt.
  pose (P := λ (k : nat) (a : list Z),
    length a = length tot ∧ ∀ d, d < k → elt a d = bucket_sum hist NG d).
  change (P (0 + RADIX) (foldl (λ bt d, <[d:=bucket_sum hist NG d]> bt) tot (seq 0 RADIX))).
  apply foldl_seq_invariant.
  - split; [done | lia].
  - intros i a Hi [Hl Ha]. split.
    + by rewrite length_insert.
    + intros d Hd. destruct (decide (d = i)) as [->|Hne].
      * apply elt_insert_eq. lia.
      * rewrite elt_insert_ne by done. apply Ha. lia.
Qed.

Lemma compute_pg_spec tot pre :
  RADIX ≤ length pre →
  length (compute_pg tot pre) = length pre ∧
  elt (compute_pg tot pre) 0 = 0%Z ∧
  ∀ d, 1 ≤ d < RADIX →
    elt (compute_pg tot pre) d
    = u32 (elt (compute_pg tot pre) (d - 1) + elt tot (d - 1)).
Proof.
  intros Hlen. unfold compute_pg.
  pose (P := λ (k : nat) (a : list Z),
    length a = length pre ∧ elt a 0 = 0%Z ∧
    ∀ d, 1 ≤ d < k → elt a d = u32 (elt a (d - 1) + elt tot (d - 1))).
  assert (HR : 1 + (RADIX - 1) = RADIX) by (rewrite RADIX_eq; lia).
  cut (P (1 + (RADIX - 1))
         (foldl (λ pg d, <[d := u32 (elt pg (d - 1) + elt tot (d - 1))]> pg)
                (<[0 := 0%Z]> pre) (seq 1 (RADIX - 1)))).
  { rewrite HR. done. }
  rewrite <- HR in Hlen.
  apply (foldl_seq_invariant P).
  - split; [by rewrite length_insert|]. split; [|lia].
    apply elt_insert_eq. lia.
  - intros i a Hi (Hl & H0 & Ha). split; [by rewrite length_insert|]. split.
    + rewrite elt_insert_ne by lia. done.
    + intros d Hd. destruct (decide (d = i)) as [->|Hne].
      * rewrite elt_insert_eq by lia. rewrite elt_insert_ne by lia. done.
      * rewrite !elt_insert_ne by lia. apply Ha. lia.
Qed.

(** Cells of the flattened table: [(g, d)] lives at [g * RADIX + d]. *)
Lemma cell_inj g d g' d' :
  d < RADIX → d' < RADIX → g * RADIX + d = g' * RADIX + d' → g = g' ∧ d = d'.
Proof. rewrite RADIX_eq. lia. Qed.

Lemma cell_lt g d NG : g < NG → d < RADIX → g * RADIX + d < NG * RADIX.
Proof. rewrite RADIX_eq. lia. Qed.

Lemma go_column_spec hist NG d off :
  d < RADIX → NG * RADIX ≤ length off →
  let r := (go_column hist NG d off).1 in
  length r = length off ∧
  (∀ g, g < NG → elt r (g * RADIX + d) = u32 (sumZ (column hist d g))) ∧
  (∀ k, (∀ g, g < NG → k ≠ g * RADIX + d) → elt r k = elt off k).
Proof.
  intros Hd Hlen. unfold go_column.
  pose (P := λ (n : nat) (st : list Z * Z),
    length st.1 = length off ∧
    st.2 = u32 (sumZ (column hist d n)) ∧
    (∀ g, g < n → elt st.1 (g * RADIX + d) = u32 (sumZ (column hist d g))) ∧
    (∀ k, (∀ g, g < n → k ≠ g * RADIX + d) → elt st.1 k = elt off k)).
  cut (P (0 + NG) (foldl (λ '(go, sum) g,
           (<[g * RADIX + d := sum]> go, u32 (sum + elt hist (g * RADIX + d))))
        (off, 0%Z) (seq 0 NG))).
  { intros (H1 & _ & H3 & H4). done. }
  apply (foldl_seq_invariant P).
  - repeat split; simpl; intros; lia || done.
  - intros i [a sum] Hi HP. unfold P in *. cbn [fst snd] in *.
    destruct HP as (Hl & Hs & Ha & Hk).
    split; [by rewrite length_insert|]. split; [|split].
    + rewrite column_S, sumZ_snoc, Hs. apply u32_add_l.
    + intros g Hg. destruct (decide (g = i)) as [->|Hne].
      * rewrite elt_insert_eq; [done|]. rewrite Hl.
        pose proof (cell_lt i d NG). lia.
      * rewrite elt_insert_ne.
        -- apply Ha. lia.
        -- intros Heq. apply cell_inj in Heq; lia.
    + intros k Hne. rewrite elt_insert_ne.
      * apply Hk. intros g Hg. apply Hne. lia.
      * intros Heq. by apply (Hne i); [lia|].
Qed.

Lemma compute_go_spec hist NG off :
  NG * RADIX ≤ length off →
  length (compute_go hist NG off) = length off ∧
  ∀ g d, g < NG → d < RADIX →
    elt (compute_go hist NG off) (g * RADIX + d) = u32 (sumZ (column hist d g)).
Proof.
  intros Hlen. unfold compute_go.
  pose (P := λ (n : nat) (a : list Z),
    length a = length off ∧
    ∀ g d, g < NG → d < n → elt a (g * RADIX + d) = u32 (sumZ (column hist d g))).
  change (P (0 + RADIX) (foldl (λ go d, (go_column hist NG d go).1) off (seq 0 RADIX))).
  apply (foldl_seq_invariant P).
  - split; [done | intros; lia].
  - intros i a Hi [Hl Ha].
    destruct (go_column_spec hist NG i a) as (H1 & H2 & H3); [lia | lia |].
    simpl in *. split; [congruence|].
    intros g d Hg Hd. destruct (decide (d = i)) as [->|Hne].
    + by apply H2.
    + rewrite H3.
      * apply Ha; lia.
      * intros g' Hg' Heq. apply cell_inj in Heq; lia.
Qed.

(** ** A stable distribution pass, abstractly *)

Section distribution.
Context {A : Type} (f : A → nat).

Lemma filter_below_S m l :
  filter (λ x, f x < S m) l
  ≡ₚ filter (λ x, f x < m) l ++ filter (λ x, f x = m) l.
Proof.
  induction l as [|x l IH]; [done|].
  rewrite !filter_cons.
  destruct (decide (f x < S m)), (decide (f x < m)), (decide (f x = m));
    try lia; simpl.
  - by rewrite IH.
  - rewrite IH. apply Permutation_middle.
  - done.
Qed.

Lemma buckets_below m l : buckets f m l ≡ₚ filter (λ x, f x < m) l.
Proof.
  induction m as [|m IH]; simpl.
  - induction l as [|x l IHl]; [done|].
    rewrite filter_cons. destruct (decide (f x < 0)); [lia | done].
  - by rewrite filter_below_S, IH.
Qed.

Lemma buckets_Permutation m l : Forall (λ x, f x < m) l → buckets f m l ≡ₚ l.
Proof.
  intros Hall. rewrite buckets_below.
  induction Hall as [|x l Hx Hl IH]; [done|].
  rewrite filter_cons_True by done. by rewrite IH.
Qed.

Lemma length_buckets m l :
  length (buckets f m l) = length (filter (λ x, f x < m) l).
Proof. by rewrite buckets_below. Qed.

Lemma length_filter_mono (P Q : A → Prop)
    `{∀ x, Decision (P x)} `{∀ x, Decision (Q x)} l :
  (∀ x, P x → Q x) → length (filter P l) ≤ length (filter Q l).
Proof.
  intros HPQ. induction l as [|x l IH]; [done|].
  rewrite !filter_cons.
  destruct (decide (P x)), (decide (Q x)); simpl; try lia.
  exfalso. auto.
Qed.

Lemma length_below_le a b l :
  a < b →
  length (filter (λ x, f x < a) l) + length (filter (λ x, f x = a) l)
  ≤ length (filter (λ x, f x < b) l).
Proof.
  intros Hab.
  rewrite <- length_app, <- (Permutation_length (filter_below_S a l)).
  apply length_filter_mono. intros x. lia.
Qed.

(** The rank of an element inside its bucket. *)
Lemma filter_lookup_rank (P : A → Prop) `{∀ x, Decision (P x)} l i x :
  l !! i = Some x → P x →
  filter P l !! length (filter P (take i l)) = Some x.
Proof.
  intros Hi HP.
  replace (filter P l)
    with (filter P (take i l) ++ x :: filter P (drop (S i) l)).
  - by rewrite list_lookup_middle.
  - rewrite <- (filter_cons_True P x (drop (S i) l) HP), <- filter_app.
    by rewrite take_drop_middle.
Qed.

Lemma rank_lt (P : A → Prop) `{∀ x, Decision (P x)} l i x :
  l !! i = Some x → P x →
  length (filter P (take i l)) < length (filter P l).
Proof.
  intros Hi HP. apply lookup_lt_is_Some. eexists.
  by apply filter_lookup_rank.
Qed.

Lemma rank_mono (P : A → Prop) `{∀ x, Decision (P x)} l i j x :
  l !! i = Some x → P x → i < j →
  length (filter P (take i l)) < length (filter P (take j l)).
Proof.
  intros Hi HP Hij.
  assert (take j l !! i = Some x) as Hi' by (by rewrite lookup_take_lt).
  pose proof (rank_lt P (take j l) i x Hi' HP) as Hlt.
  rewrite take_take in Hlt. by replace (i `min` j) with i in Hlt by lia.
Qed.

Lemma slot_lt_bucket_end l i x :
  l !! i = Some x →
  slot f l i x
  < length (filter (λ y, f y < f x) l) + length (filter (λ y, f y = f x) l).
Proof.
  intros Hi. unfold slot.
  pose proof (rank_lt (λ y, f y = f x) l i x Hi eq_refl). lia.
Qed.

Lemma slot_lt l i x : l !! i = Some x → slot f l i x < length l.
Proof.
  intros Hi. pose proof (slot_lt_bucket_end l i x Hi) as Hlt.
  pose proof (length_below_le (f x) (S (f x)) l ltac:(lia)).
  pose proof (length_filter (λ y, f y < S (f x)) l). lia.
Qed.

(** Keys with the same digit keep their order. *)
Lemma slot_stable l i j x y :
  l !! i = Some x → l !! j = Some y → f x = f y → i < j →
  slot f l i x < slot f l j y.
Proof.
  intros Hi Hj Hf Hij. unfold slot. rewrite <- Hf.
  pose proof (rank_mono (λ y, f y = f x) l i j x Hi eq_refl Hij). lia.
Qed.

Lemma slot_lt_digit l i j x y :
  l !! i = Some x → l !! j = Some y → f x < f y → slot f l i x < slot f l j y.
Proof.
  intros Hi Hj Hf.
  pose proof (slot_lt_bucket_end l i x Hi).
  pose proof (length_below_le (f x) (f y) l Hf).
  unfold slot at 2. lia.
Qed.

Lemma slot_inj l i j x y :
  l !! i = Some x → l !! j = Some y → slot f l i x = slot f l j y → i = j.
Proof.
  intros Hi Hj Heq.
  destruct (lt_eq_lt_dec (f x) (f y)) as [[Hlt|Hfe]|Hgt].
  - pose proof (slot_lt_digit l i j x y Hi Hj Hlt). lia.
  - destruct (lt_eq_lt_dec i j) as [[Hij|Hij]|Hij]; [|done|].
    + pose proof (slot_stable l i j x y Hi Hj Hfe Hij). lia.
    + pose proof (slot_stable l j i y x Hj Hi (eq_sym Hfe) Hij). lia.
  - pose proof (slot_lt_digit l j i y x Hj Hi Hgt). lia.
Qed.

Lemma buckets_lookup_slot m l i x :
  l !! i = Some x → f x < m → buckets f m l !! slot f l i x = Some x.
Proof.
  intros Hi. induction m as [|m IH]; [lia|]. intros Hm. simpl.
  destruct (decide (f x = m)) as [Hfm|Hne].
  - rewrite lookup_app_r; rewrite length_buckets; unfold slot; rewrite Hfm;
      [|lia].
    replace (_ + _ - _) with (length (filter (λ y, f y = m) (take i l))) by lia.
    by apply (filter_lookup_rank (λ y, f y = m)).
  - rewrite lookup_app_l; [apply IH; lia|].
    rewrite length_buckets.
    pose proof (slot_lt_bucket_end l i x Hi).
    pose proof (length_below_le (f x) m l ltac:(lia)). lia.
Qed.

Lemma place_Some l dst i x :
  l !! i = Some x → place f l dst i = <[slot f l i x := x]> dst.
Proof. unfold place. by intros ->. Qed.

Lemma place_all_spec l dst n :
  n ≤ length l → length l ≤ length dst →
  let r := foldl (place f l) dst (seq 0 n) in
  length r = length dst ∧
  (∀ i x, i < n → l !! i = Some x → r !! slot f l i x = Some x) ∧
  (∀ q, (∀ i x, i < n → l !! i = Some x → slot f l i x ≠ q) → r !! q = dst !! q).
Proof.
  intros Hn Hlen. cbv zeta.
  induction n as [|n IH].
  - simpl. split; [done|]. split; [intros; lia | done].
  - rewrite seq_S, foldl_snoc. simpl.
    destruct IH as (IH1 & IH2 & IH3); [lia|].
    destruct (lookup_lt_is_Some_2 l n ltac:(lia)) as [y Hy].
    rewrite (place_Some l _ n y Hy).
    pose proof (slot_lt l n y Hy) as Hsl.
    split; [by rewrite length_insert|]. split.
    + intros i x Hi Hx. destruct (decide (i = n)) as [->|Hne].
      * simplify_eq. apply list_lookup_insert_eq. lia.
      * rewrite list_lookup_insert_ne.
        -- apply IH2; [lia | done].
        -- intros Heq. apply Hne. symmetry. by eapply slot_inj.
    + intros q Hq. rewrite list_lookup_insert_ne.
      * apply IH3. intros i x Hi. apply Hq. lia.
      * by apply Hq; [lia|].
Qed.

(** Every position below [length l] is the slot of some element. *)
Lemma slot_surj l q :
  q < length l → ∃ i x, l !! i = Some x ∧ slot f l i x = q.
Proof.
  intros Hq.
  pose (sl := λ i, match l !! i with Some x => slot f l i x | None => 0 end).
  assert (List.NoDup (sl <$> seq 0 (length l))) as Hnd.
  { apply NoDup_ListNoDup, NoDup_fmap_2_strong; [|apply NoDup_seq].
    intros i j [_ Hi]%elem_of_seq [_ Hj]%elem_of_seq. unfold sl.
    destruct (lookup_lt_is_Some_2 l i ltac:(lia)) as [x Hx].
    destruct (lookup_lt_is_Some_2 l j ltac:(lia)) as [y Hy].
    rewrite Hx, Hy. by apply slot_inj. }
  assert (List.incl (sl <$> seq 0 (length l)) (seq 0 (length l))) as Hincl.
  { intros k [i [<- Hi%list_elem_of_In]]%List.in_map_iff.
    apply elem_of_seq in Hi as [_ Hi]. apply list_elem_of_In, elem_of_seq.
    unfold sl. destruct (lookup_lt_is_Some_2 l i ltac:(lia)) as [x Hx].
    rewrite Hx. pose proof (slot_lt l i x Hx). lia. }
  assert (List.In q (sl <$> seq 0 (length l))) as Hin.
  { eapply List.NoDup_length_incl; [done | | done |].
    - by rewrite length_fmap.
    - apply list_elem_of_In, elem_of_seq. lia. }
  apply List.in_map_iff in Hin as [i [<- Hi%list_elem_of_In]].
  apply elem_of_seq in Hi as [_ Hi].
  destruct (lookup_lt_is_Some_2 l i ltac:(lia)) as [x Hx].
  exists i, x. unfold sl. by rewrite Hx.
Qed.

Lemma place_all l dst m :
  Forall (λ x, f x < m) l → length l ≤ length dst →
  foldl (place f l) dst (seq 0 (length l)) = buckets f m l ++ drop (length l) dst.
Proof.
  intros Hall Hlen.
  destruct (place_all_spec l dst (length l)) as (H1 & H2 & H3); [done..|].
  assert (length (buckets f m l) = length l) as Hbl
    by (by rewrite (Permutation_length (buckets_Permutation m l Hall))).
  apply list_eq. intros q.
  destruct (decide (q < length l)) as [Hq|Hq].
  - destruct (slot_surj l q Hq) as (i & x & Hx & <-).
    rewrite H2 by (done || by eapply lookup_lt_Some).
    rewrite lookup_app_l by (rewrite Hbl; by eapply slot_lt).
    symmetry. apply buckets_lookup_slot; [done|].
    rewrite Forall_forall in Hall. apply Hall.
    by eapply list_elem_of_lookup_2.
  - rewrite H3.
    + rewrite lookup_app_r by lia. rewrite lookup_drop. f_equal. lia.
    + intros i x _ Hx. pose proof (slot_lt l i x Hx). lia.
Qed.
End distribution.

(** ** Sortedness through a distribution pass *)

Lemma StronglySorted_filter {A} (R : relation A) (P : A → Prop)
    `{∀ x, Decision (P x)} l :
  StronglySorted R l → StronglySorted R (filter P l).
Proof.
  induction 1 as [|x l Hl IH Hx]; [constructor|].
  rewrite filter_cons. destruct (decide (P x)); [|done].
  constructor; [done|].
  rewrite Forall_forall in *. intros y [_ Hy]%list_elem_of_filter. auto.
Qed.

Lemma StronglySorted_trivial {A} (R : relation A) l :
  (∀ x y, R x y) → StronglySorted R l.
Proof.
  intros HR. induction l; constructor; [done|]. by apply Forall_forall.
Qed.

Lemma StronglySorted_impl_elem {A} (R R' : relation A) l :
  (∀ x y, x ∈ l → y ∈ l → R x y → R' x y) →
  StronglySorted R l → StronglySorted R' l.
Proof.
  intros HR Hs. induction Hs as [|x l Hl IH Hx]; [constructor|].
  constructor.
  - apply IH. intros a b Ha Hb. apply HR; by right.
  - rewrite Forall_forall in *. intros y Hy.
    apply HR; [by left | by right | auto].
Qed.

Section distribution_sorted.
Context {A : Type} (f : A → nat) (lo full : A → Z) (W : Z).
Hypothesis full_split : ∀ x, full x = (Z.of_nat (f x) * W + lo x)%Z.
Hypothesis lo_range : ∀ x, (0 ≤ lo x < W)%Z.

Lemma full_lt x y : f x < f y → (full x ≤ full y)%Z.
Proof.
  intros Hf. rewrite !full_split.
  pose proof (lo_range x). pose proof (lo_range y). nia.
Qed.

Lemma full_eq x y : f x = f y → (lo x ≤ lo y)%Z → (full x ≤ full y)%Z.
Proof. intros Hf Hlo. rewrite !full_split, Hf. lia. Qed.

Lemma buckets_sorted m l :
  StronglySorted (λ x y, (lo x ≤ lo y)%Z) l →
  StronglySorted (λ x y, (full x ≤ full y)%Z) (buckets f m l).
Proof.
  intros Hl. induction m as [|m IH]; simpl; [constructor|].
  apply StronglySorted_app_2; [|done|].
  - intros x y Hx Hy.
    rewrite buckets_below in Hx.
    apply list_elem_of_filter in Hx as [Hx _].
    apply list_elem_of_filter in Hy as [Hy _].
    apply full_lt. lia.
  - apply StronglySorted_impl_elem with (R := λ x y, (lo x ≤ lo y)%Z).
    + intros x y [Hx _]%list_elem_of_filter [Hy _]%list_elem_of_filter.
      apply full_eq. congruence.
    + by apply StronglySorted_filter.
Qed.
End distribution_sorted.

(** ** Digits *)

Lemma digit_spec shift key :
  (0 ≤ shift)%Z → digit shift key = Z.to_nat ((key / 2 ^ shift) mod 256).
Proof.
  intros Hs. unfold digit.
  change (Z.of_nat RADIX - 1)%Z with (Z.ones 8).
  rewrite Z.land_ones by lia. by rewrite Z.shiftr_div_pow2.
Qed.

Lemma digit_lt shift key : digit shift key < RADIX.
Proof.
  unfold digit. change (Z.of_nat RADIX - 1)%Z with (Z.ones 8).
  rewrite Z.land_ones by lia. rewrite RADIX_eq.
  pose proof (Z.mod_pos_bound (Z.shiftr key shift) (2 ^ 8) ltac:(lia)). lia.
Qed.

Lemma digit_split shift key :
  (0 ≤ shift)%Z →
  (key mod 2 ^ (shift + 8)
   = Z.of_nat (digit shift key) * 2 ^ shift + key mod 2 ^ shift)%Z.
Proof.
  intros Hs. rewrite digit_spec by done.
  rewrite Z2Nat.id by (apply Z.mod_pos_bound; lia).
  rewrite Z.pow_add_r by lia.
  rewrite Z.rem_mul_r by lia. change (2 ^ 8)%Z with 256%Z. lia.
Qed.

Lemma shift_of_eq p : p < PASSES → shift_of p = (8 * Z.of_nat p)%Z.
Proof.
  rewrite PASSES_eq. intros Hp. unfold shift_of, BITS.
  rewrite u32_small; [lia|]. unfold is_u32. lia.
Qed.

(** ** Least-significant-digit radix sort on lists *)

Lemma lsd_S k l : lsd (S k) l = lsd_pass k (lsd k l).
Proof. unfold lsd. by rewrite seq_S, foldl_snoc. Qed.

Lemma lsd_pass_Permutation p l : lsd_pass p l ≡ₚ l.
Proof.
  apply buckets_Permutation, Forall_forall. intros. apply digit_lt.
Qed.

Lemma length_lsd_pass p l : length (lsd_pass p l) = length l.
Proof. by rewrite lsd_pass_Permutation. Qed.

Lemma lsd_Permutation k l : lsd k l ≡ₚ l.
Proof.
  induction k as [|k IH]; [done|].
  by rewrite lsd_S, lsd_pass_Permutation.
Qed.

Lemma lsd_length k l : length (lsd k l) = length l.
Proof. by rewrite lsd_Permutation. Qed.

Lemma lsd_sorted k l :
  k ≤ PASSES →
  StronglySorted (λ x y, (x mod 2 ^ (8 * Z.of_nat k) ≤ y mod 2 ^ (8 * Z.of_nat k))%Z)
    (lsd k l).
Proof.
  induction k as [|k IH]; intros Hk.
  - apply StronglySorted_trivial. intros x y.
    change (2 ^ (8 * Z.of_nat 0))%Z with 1%Z. by rewrite !Z.mod_1_r.
  - rewrite lsd_S. unfold lsd_pass.
    rewrite shift_of_eq by lia.
    eapply (buckets_sorted _ (λ x, x mod 2 ^ (8 * Z.of_nat k))%Z
              (λ x, x mod 2 ^ (8 * Z.of_nat (S k)))%Z (2 ^ (8 * Z.of_nat k))%Z).
    + intros x. replace (8 * Z.of_nat (S k))%Z with (8 * Z.of_nat k + 8)%Z by lia.
      apply digit_split. lia.
    + intros x. apply Z.mod_pos_bound. lia.
    + apply IH. lia.
Qed.

(** Eight passes of eight bits sort 64-bit keys. *)
Lemma lsd_sorts l :
  Forall is_u64 l → lsd PASSES l = merge_sort Z.le l.
Proof.
  intros Hl.
  apply (StronglySorted_unique Z.le).
  - apply StronglySorted_impl_elem
      with (R := λ x y, (x mod 2 ^ (8 * Z.of_nat PASSES) ≤ y mod 2 ^ (8 * Z.of_nat PASSES))%Z).
    + intros x y Hx Hy.
      rewrite lsd_Permutation in Hx, Hy.
      rewrite Forall_forall in Hl.
      pose proof (Hl x Hx) as Hx'. pose proof (Hl y Hy) as Hy'.
      unfold is_u64 in *.
      change (2 ^ (8 * Z.of_nat PASSES))%Z with (2 ^ 64)%Z.
      by rewrite !Z.mod_small.
    + by apply lsd_sorted.
  - apply StronglySorted_merge_sort; apply _.
  - by rewrite lsd_Permutation, merge_sort_Permutation.
Qed.

(** ** The histogram stage of the design document *)

Lemma cell_div g d : d < RADIX → (g * RADIX + d) / RADIX = g.
Proof.
  intros Hd. symmetry. apply (Nat.div_unique _ _ _ d); [done | lia].
Qed.

Lemma cell_mod g d : d < RADIX → (g * RADIX + d) mod RADIX = d.
Proof.
  intros Hd. symmetry. apply (Nat.mod_unique _ _ g); [done | lia].
Qed.

Lemma count_digit_app shift d l k :
  count_digit shift d (l ++ k) = count_digit shift d l + count_digit shift d k.
Proof. unfold count_digit. by rewrite filter_app, length_app. Qed.

Lemma count_digit_le shift d l : count_digit shift d l ≤ length l.
Proof. apply length_filter. Qed.

Lemma length_group_keys keys g : length (group_keys keys g) ≤ LOCAL_SZ.
Proof. unfold group_keys. rewrite length_take. lia. Qed.

Lemma take_groups keys g :
  take (S g * LOCAL_SZ) keys = take (g * LOCAL_SZ) keys ++ group_keys keys g.
Proof.
  unfold group_keys. rewrite take_take_drop. f_equal. lia.
Qed.

Lemma length_spec_histogram src hist n shift :
  length (spec_histogram src hist n shift) = length hist.
Proof. unfold spec_histogram. apply length_imap. Qed.

Lemma spec_histogram_zero src cells n shift g d :
  d < RADIX → g * RADIX + d < cells →
  elt (spec_histogram src (replicate cells 0%Z) n shift) (g * RADIX + d)
  = Z.of_nat (count_digit shift d (group_keys (take (Z.to_nat n) src) g)).
Proof.
  intros Hd Hc. apply elt_lookup. unfold spec_histogram.
  rewrite list_lookup_imap, lookup_replicate_2 by done.
  cbv [fmap option_fmap option_map].
  rewrite cell_div, cell_mod by done. f_equal.
  rewrite Z.add_0_l. apply u32_small.
  pose proof (count_digit_le shift d (group_keys (take (Z.to_nat n) src) g)).
  pose proof (length_group_keys (take (Z.to_nat n) src) g).
  unfold is_u32, LOCAL_SZ in *. lia.
Qed.

(** ** Offsets computed from an exact histogram *)

Section exact_offsets.
Context (shift : Z) (keys hist : list Z) (NG : nat).
Hypothesis hist_exact : ∀ g d, g < NG → d < RADIX →
  elt hist (g * RADIX + d) = Z.of_nat (count_digit shift d (group_keys keys g)).
Hypothesis keys_small : (Z.of_nat (length keys) < 2 ^ 32)%Z.

Lemma column_exact d g :
  g ≤ NG → d < RADIX →
  sumZ (column hist d g)
  = Z.of_nat (count_digit shift d (take (g * LOCAL_SZ) keys)).
Proof.
  intros Hg Hd. induction g as [|g IH].
  - by rewrite take_0.
  - rewrite column_S, sumZ_snoc, IH by lia.
    rewrite hist_exact by lia.
    rewrite take_groups, count_digit_app. lia.
Qed.

Lemma count_is_u32 d l :
  length l ≤ length keys → is_u32 (Z.of_nat (count_digit shift d l)).
Proof.
  intros Hl. pose proof (count_digit_le shift d l). unfold is_u32. lia.
Qed.

Lemma length_take_keys n : length (take n keys) ≤ length keys.
Proof. rewrite length_take. lia. Qed.

Lemma bucket_sum_exact d g :
  g ≤ NG → d < RADIX →
  bucket_sum hist g d
  = Z.of_nat (count_digit shift d (take (g * LOCAL_SZ) keys)).
Proof.
  intros Hg Hd. rewrite bucket_sum_spec, column_exact by done.
  apply u32_small, count_is_u32, length_take_keys.
Qed.

Lemma go_exact off g d :
  NG * RADIX ≤ length off → g < NG → d < RADIX →
  elt (compute_go hist NG off) (g * RADIX + d)
  = Z.of_nat (count_digit shift d (take (g * LOCAL_SZ) keys)).
Proof.
  intros Ho Hg Hd.
  destruct (compute_go_spec hist NG off Ho) as [_ Hgo].
  rewrite Hgo, column_exact by (done || lia).
  apply u32_small, count_is_u32, length_take_keys.
Qed.

Hypothesis groups_cover : length keys ≤ NG * LOCAL_SZ.

Lemma bucket_total_exact d :
  d < RADIX → bucket_sum hist NG d = Z.of_nat (count_digit shift d keys).
Proof.
  intros Hd. rewrite bucket_sum_exact by done.
  by rewrite take_ge.
Qed.

Lemma pg_exact tot pre d :
  RADIX ≤ length tot → RADIX ≤ length pre → d < RADIX →
  elt (compute_pg (compute_bt hist NG tot) pre) d
  = Z.of_nat (length (filter (λ key, digit shift key < d) keys)).
Proof.
  intros Ht Hp Hd.
  destruct (compute_bt_spec hist NG tot Ht) as [_ Hbt].
  destruct (compute_pg_spec (compute_bt hist NG tot) pre Hp) as (_ & H0 & HS).
  induction d as [|d IH].
  - rewrite H0. symmetry.
    rewrite (Permutation_length (symmetry (buckets_below _ 0 keys))). done.
  - rewrite HS by lia. replace (S d - 1) with d by lia.
    rewrite IH, Hbt, bucket_total_exact by lia.
    rewrite (Permutation_length (filter_below_S _ d keys)), length_app.
    rewrite <- Nat2Z.inj_add. apply u32_small.
    pose proof (Permutation_length (filter_below_S (digit shift) d keys)) as E.
    rewrite length_app in E.
    pose proof (length_filter (λ key, digit shift key < S d) keys).
    unfold is_u32, count_digit. lia.
Qed.

(** The index the scatter stage computes is the slot of a stable
    distribution. *)
Lemma placement_slot tot pre off i key :
  RADIX ≤ length tot → RADIX ≤ length pre → NG * RADIX ≤ length off →
  keys !! i = Some key →
  placement shift keys (compute_pg (compute_bt hist NG tot) pre)
    (compute_go hist NG off) i key
  = slot (digit shift) keys i key.
Proof.
  intros Ht Hp Ho Hi.
  pose proof (lookup_lt_Some _ _ _ Hi) as Hlt.
  pose proof (digit_lt shift key) as Hd.
  assert (i / LOCAL_SZ < NG) as Hg.
  { pose proof groups_cover as Hc.
    apply Nat.Div0.div_lt_upper_bound. unfold LOCAL_SZ in *. clear - Hc Hlt. lia. }
  unfold placement, slot, rank_in_group.
  rewrite pg_exact, go_exact by done.
  rewrite <- !Nat2Z.inj_add, Nat2Z.id. rewrite <- Nat.add_assoc. f_equal.
  unfold count_digit. rewrite <- length_app, <- filter_app. do 2 f_equal.
  unfold group_keys. rewrite take_take.
  rewrite Nat.min_l
    by (apply Nat.lt_le_incl, Nat.mod_upper_bound; done).
  rewrite take_take_drop. f_equal.
  rewrite (Nat.mul_comm _ LOCAL_SZ). symmetry. apply Nat.div_mod_eq.
Qed.
End exact_offsets.

(** ** The element count the stages receive *)

Lemma le_value_take k n z :
  k ≤ n → le_value (take k (le_bytes n z)) = (z mod 256 ^ Z.of_nat k)%Z.
Proof.
  revert n z. induction k as [|k IH]; intros n z Hk.
  - simpl. by rewrite Z.mod_1_r.
  - destruct n as [|n]; [lia|]. simpl take. simpl le_value.
    rewrite IH by lia.
    rewrite Nat2Z.inj_succ, Z.pow_succ_r by lia.
    rewrite Z.rem_mul_r by lia. done.
Qed.

Lemma kernel_arg_u32_spec N : kernel_arg_u32 N = u32 (Z.of_nat N).
Proof. unfold kernel_arg_u32. by rewrite le_value_take by lia. Qed.

Lemma kernel_arg_u32_small N :
  (Z.of_nat N < 2 ^ 32)%Z → Z.to_nat (kernel_arg_u32 N) = N.
Proof.
  intros HN. rewrite kernel_arg_u32_spec, u32_small; [lia|].
  unfold is_u32. lia.
Qed.

(** At [N = 2^32] the stages are told that there is nothing to sort. *)
Lemma kernel_arg_u32_wraps : kernel_arg_u32 (Z.to_nat (2 ^ 32)) = 0%Z.
Proof. rewrite kernel_arg_u32_spec, Z2Nat.id by lia. reflexivity. Qed.

Lemma kernel_arg_u32_le N : Z.to_nat (kernel_arg_u32 N) ≤ N.
Proof.
  rewrite kernel_arg_u32_spec. unfold u32.
  pose proof (Z.mod_le (Z.of_nat N) (2 ^ 32) ltac:(lia) ltac:(lia)).
  pose proof (Z.mod_pos_bound (Z.of_nat N) (2 ^ 32) ltac:(lia)). lia.
Qed.

Lemma kernel_arg_u32_lt N : (Z.of_nat (Z.to_nat (kernel_arg_u32 N)) < 2 ^ 32)%Z.
Proof.
  rewrite kernel_arg_u32_spec. unfold u32.
  pose proof (Z.mod_pos_bound (Z.of_nat N) (2 ^ 32) ltac:(lia)). lia.
Qed.

Lemma NUM_GROUPS_cover N : fits_size_t N → N ≤ NUM_GROUPS N * LOCAL_SZ.
Proof.
  unfold fits_size_t, NUM_GROUPS, LOCAL_SZ, u64. intros HN.
  rewrite Z.mod_small by lia.
  pose proof (Z.div_mod (Z.of_nat N + 256 - 1) 256 ltac:(lia)).
  pose proof (Z.mod_pos_bound (Z.of_nat N + 256 - 1) 256 ltac:(lia)).
  lia.
Qed.

Lemma NUM_GROUPS_0 : NUM_GROUPS 0 = 0.
Proof. reflexivity. Qed.

(** The launch has a lane for every key. *)
Lemma GLOBAL_SZ_cover N :
  fits_size_t N → GLOBAL_SZ N = NUM_GROUPS N * LOCAL_SZ ∧ N ≤ GLOBAL_SZ N.
Proof.
  intros HN. pose proof (NUM_GROUPS_cover N HN) as Hc.
  assert (GLOBAL_SZ N = NUM_GROUPS N * LOCAL_SZ) as ->; [|done].
  unfold GLOBAL_SZ.
  assert (Z.of_nat (NUM_GROUPS N) * Z.of_nat LOCAL_SZ < 2 ^ 64)%Z as Hlt.
  { unfold fits_size_t in HN. revert HN. unfold NUM_GROUPS, LOCAL_SZ, u64.
    intros HN. rewrite Z.mod_small by lia.
    rewrite Z2Nat.id by (apply Z.div_pos; lia).
    pose proof (Z.mul_div_le (Z.of_nat N + 256 - 1) 256 ltac:(lia)). lia. }
  rewrite u64_small by (unfold is_u64; lia). lia.
Qed.

(** ** The scatter stage of the design document *)

Lemma foldl_ext_in {A B} (f g : A → B → A) a l :
  (∀ x i, i ∈ l → f x i = g x i) → foldl f a l = foldl g a l.
Proof.
  revert a. induction l as [|i l IH]; intros a Hfg; [done|]. simpl.
  rewrite Hfg by left. apply IH. intros x j Hj. apply Hfg. by right.
Qed.

Lemma length_scatter_lane shift keys pre off dst i :
  length (scatter_lane shift keys pre off dst i) = length dst.
Proof.
  unfold scatter_lane. destruct (keys !! i); [|done]. apply length_insert.
Qed.

Lemma length_spec_scatter src dst pre off n shift :
  length (spec_scatter src dst pre off n shift) = length dst.
Proof.
  unfold spec_scatter. generalize (seq 0 (Z.to_nat n)). intros l.
  revert dst. induction l as [|i l IH]; intros dst; [done|]. simpl.
  by rewrite IH, length_scatter_lane.
Qed.

Section exact_scatter.
Context (shift : Z) (src hist : list Z) (N n : nat).
Local Abbreviation keys := (take n src).
Hypothesis hist_exact : ∀ g d, g < NUM_GROUPS N → d < RADIX →
  elt hist (g * RADIX + d) = Z.of_nat (count_digit shift d (group_keys keys g)).
Hypothesis n_small : (Z.of_nat n < 2 ^ 32)%Z.
Hypothesis n_le : n ≤ N.
Hypothesis N_fits : fits_size_t N.
Hypothesis src_length : length src = N.

Lemma length_keys : length keys = n.
Proof. rewrite length_take. lia. Qed.

Lemma spec_scatter_exact tot pre off dst :
  RADIX ≤ length tot → RADIX ≤ length pre →
  NUM_GROUPS N * RADIX ≤ length off → length dst = N →
  spec_scatter src dst
    (compute_pg (compute_bt hist (NUM_GROUPS N) tot) pre)
    (compute_go hist (NUM_GROUPS N) off) (Z.of_nat n) shift
  = buckets (digit shift) RADIX keys ++ drop n dst.
Proof.
  intros Ht Hp Ho Hd. unfold spec_scatter. rewrite Nat2Z.id.
  pose proof length_keys as Hk.
  pose proof (NUM_GROUPS_cover N N_fits) as Hcov.
  rewrite (foldl_ext_in _ (place (digit shift) keys)).
  - transitivity (buckets (digit shift) RADIX keys ++ drop (length keys) dst);
      [|by rewrite Hk].
    replace (seq 0 n) with (seq 0 (length keys)) by (by rewrite Hk).
    apply place_all; [|lia].
    apply Forall_forall. intros. apply digit_lt.
  - intros x i _. unfold scatter_lane, place.
    destruct (keys !! i) as [key|] eqn:Hi; [|done].
    f_equal. apply (placement_slot shift keys hist (NUM_GROUPS N)); try done; lia.
Qed.
End exact_scatter.

(** ** Counting over all digits *)

Lemma count_digits_below shift keys m :
  sumZ ((λ d, Z.of_nat (count_digit shift d keys)) <$> seq 0 m)
  = Z.of_nat (length (filter (λ key, digit shift key < m) keys)).
Proof.
  induction m as [|m IH].
  - rewrite <- (Permutation_length (buckets_below (digit shift) 0 keys)). done.
  - rewrite seq_S, fmap_app, sumZ_app, IH.
    cbn [fmap list_fmap sumZ foldr Nat.add].
    rewrite (Permutation_length (filter_below_S (digit shift) m keys)), length_app.
    unfold count_digit. lia.
Qed.

Lemma count_digits_all shift keys :
  sumZ ((λ d, Z.of_nat (count_digit shift d keys)) <$> seq 0 RADIX)
  = Z.of_nat (length keys).
Proof.
  rewrite count_digits_below. f_equal.
  rewrite <- (Permutation_length (buckets_below (digit shift) RADIX keys)).
  apply Permutation_length, buckets_Permutation, Forall_forall.
  intros. apply digit_lt.
Qed.

(** ** One pass, for any pair of stages *)

Lemma length_blit_take (devbuf host : list Z) :
  length (blit (take (length host) devbuf) host) = length host.
Proof.
  unfold blit. rewrite length_app, length_drop, length_take. lia.
Qed.

Lemma blit_same_length (data old : list Z) :
  length old ≤ length data → blit data old = data.
Proof.
  intros Hl. unfold blit. rewrite drop_ge by done. apply app_nil_r.
Qed.

Lemma length_foldl_insert {A} (f : list A → nat → A) (g : nat → nat) l a :
  length (foldl (λ a i, <[g i := f a i]> a) a l) = length a.
Proof.
  revert a. induction l as [|i l IH]; intros a; [done|]. simpl.
  by rewrite IH, length_insert.
Qed.

Lemma length_compute_bt hist NG tot : length (compute_bt hist NG tot) = length tot.
Proof.
  unfold compute_bt.
  apply (length_foldl_insert (λ _ d, bucket_sum hist NG d) id).
Qed.

Lemma length_compute_pg tot pre : length (compute_pg tot pre) = length pre.
Proof.
  unfold compute_pg.
  rewrite (length_foldl_insert
             (λ a d, u32 (elt a (d - 1) + elt tot (d - 1))) id).
  apply length_insert.
Qed.

Lemma length_go_column hist NG d off :
  length (go_column hist NG d off).1 = length off.
Proof.
  unfold go_column. generalize 0%Z. generalize (seq 0 NG). intros l.
  revert off. induction l as [|g l IH]; intros off z; [done|]. simpl.
  by rewrite IH, length_insert.
Qed.

Lemma length_compute_go hist NG off : length (compute_go hist NG off) = length off.
Proof.
  unfold compute_go. generalize (seq 0 RADIX). intros l.
  revert off. induction l as [|d l IH]; intros off; [done|]. simpl.
  by rewrite IH, length_go_column.
Qed.

Section any_stages.
Context `{Stages}.

Lemma passes_S N zero s k :
  passes N zero s (S k) = pass_body N zero (passes N zero s k) k.
Proof. unfold passes. by rewrite seq_S, foldl_snoc. Qed.

Lemma pass_body_vectors N zero s p :
  vectors (pass_body N zero s p) = vectors s.
Proof. by state_cbn. Qed.

Lemma pass_body_buf_in N zero s p : buf_in (pass_body N zero s p) = buf_out s.
Proof. by state_cbn. Qed.

Lemma pass_body_buf_out N zero s p : buf_out (pass_body N zero s p) = buf_in s.
Proof. by state_cbn. Qed.

Lemma pass_body_gh N zero s p :
  key_buffer (buf_in s) →
  gh (pass_body N zero s p) = gh_after N zero s p.
Proof.
  destruct s; unfold key_buffer, gh_after, hist_mem; state_cbn.
  intros [-> | ->]; by dev_lookup.
Qed.

Lemma pass_body_bt N zero s p :
  bt (pass_body N zero s p) = compute_bt (gh (pass_body N zero s p)) (NUM_GROUPS N) (bt s).
Proof. by state_cbn. Qed.

Lemma pass_body_pg N zero s p :
  pg (pass_body N zero s p) = compute_pg (bt (pass_body N zero s p)) (pg s).
Proof. by state_cbn. Qed.

Lemma pass_body_go N zero s p :
  go (pass_body N zero s p) = compute_go (gh (pass_body N zero s p)) (NUM_GROUPS N) (go s).
Proof. by state_cbn. Qed.

Lemma pass_body_h2d N zero s p :
  total_host_to_device (pass_body N zero s p)
  = u64 (u64 (u64 (total_host_to_device s + bytes_uint zero)
              + bytes_uint (pg (pass_body N zero s p)))
         + bytes_uint (go (pass_body N zero s p))).
Proof. by state_cbn. Qed.

Lemma pass_body_d2h N zero s p :
  total_device_to_host (pass_body N zero s p)
  = u64 (total_device_to_host s + bytes_uint (gh s)).
Proof. by state_cbn. Qed.

Lemma pass_body_transfers N zero s p :
  transfers (pass_body N zero s p)
  = transfers s
    ++ [Transfer HostToDevice (bytes_uint zero);
        Transfer DeviceToHost (bytes_uint (gh s));
        Transfer HostToDevice (bytes_uint (pg (pass_body N zero s p)));
        Transfer HostToDevice (bytes_uint (go (pass_body N zero s p)))].
Proof.
  state_cbn. by rewrite <- !app_assoc.
Qed.

(** Device memory after a pass, when the key buffers are the two roles. *)
Lemma pass_body_dev_out N zero s p :
  buf_in s ≠ buf_out s → key_buffer (buf_in s) → key_buffer (buf_out s) →
  dev (pass_body N zero s p) (buf_out s)
  = scatter_stable (dev s (buf_in s)) (dev s (buf_out s))
      (blit (pg (pass_body N zero s p)) (dev s buf_pg))
      (blit (go (pass_body N zero s p)) (dev s buf_go))
      (kernel_arg_u32 N) (shift_of p).
Proof.
  destruct s; unfold key_buffer; state_cbn.
  intros Hne [-> | ->] [-> | ->]; try done; by dev_lookup.
Qed.

Lemma pass_body_dev_in N zero s p :
  buf_in s ≠ buf_out s → key_buffer (buf_in s) → key_buffer (buf_out s) →
  dev (pass_body N zero s p) (buf_in s) = dev s (buf_in s).
Proof.
  destruct s; unfold key_buffer; state_cbn.
  intros Hne [-> | ->] [-> | ->]; try done; by dev_lookup.
Qed.

Lemma pass_body_dev_gh N zero s p :
  key_buffer (buf_in s) → key_buffer (buf_out s) →
  dev (pass_body N zero s p) buf_gh = hist_mem N zero s p.
Proof.
  destruct s; unfold key_buffer, hist_mem; state_cbn.
  intros [-> | ->] [-> | ->]; by dev_lookup.
Qed.

Lemma pass_body_dev_pg N zero s p :
  key_buffer (buf_out s) →
  dev (pass_body N zero s p) buf_pg = blit (pg (pass_body N zero s p)) (dev s buf_pg).
Proof.
  destruct s; unfold key_buffer; state_cbn.
  intros [-> | ->]; by dev_lookup.
Qed.

Lemma pass_body_dev_go N zero s p :
  key_buffer (buf_out s) →
  dev (pass_body N zero s p) buf_go = blit (go (pass_body N zero s p)) (dev s buf_go).
Proof.
  destruct s; unfold key_buffer; state_cbn.
  intros [-> | ->]; by dev_lookup.
Qed.
End any_stages.

(** ** The pass loop, for any pair of stages *)

Lemma src_of_S k : src_of (S k) = dst_of k.
Proof. unfold src_of, dst_of. rewrite Nat.even_succ, <- Nat.negb_even. by destruct (Nat.even k). Qed.

Lemma dst_of_S k : dst_of (S k) = src_of k.
Proof. unfold src_of, dst_of. rewrite Nat.even_succ, <- Nat.negb_even. by destruct (Nat.even k). Qed.

Lemma src_dst_distinct k : src_of k ≠ dst_of k.
Proof. unfold src_of, dst_of. by destruct (Nat.even k). Qed.

Lemma key_buffer_src k : key_buffer (src_of k).
Proof. unfold key_buffer, src_of. destruct (Nat.even k); auto. Qed.

Lemma key_buffer_dst k : key_buffer (dst_of k).
Proof. unfold key_buffer, dst_of. destruct (Nat.even k); auto. Qed.

Lemma bytes_uint_length v n : length v = n → bytes_uint v = u64 (Z.of_nat n * SZ_UINT).
Proof. unfold bytes_uint. by intros ->. Qed.

Lemma join_replicate_S {A} k (l : list A) :
  mjoin (replicate (S k) l) = mjoin (replicate k l) ++ l.
Proof.
  induction k as [|k IH]; simpl in *.
  - by rewrite app_nil_r.
  - by rewrite <- app_assoc, <- IH.
Qed.

Section loop_any_stages.
Context `{Stages}.
Context (N cells : nat) (zero : list Z) (s0 : state).
Hypothesis zero_length : length zero = cells.
Hypothesis gh_length : length (gh s0) = cells.
Hypothesis pg_length : length (pg s0) = RADIX.
Hypothesis go_length : length (go s0) = cells.
Hypothesis roles : buf_in s0 = KeysA ∧ buf_out s0 = KeysB.

Lemma passes_roles k :
  buf_in (passes N zero s0 k) = src_of k ∧
  buf_out (passes N zero s0 k) = dst_of k.
Proof.
  induction k as [|k [IHi IHo]]; [done|].
  rewrite passes_S, pass_body_buf_in, pass_body_buf_out, src_of_S, dst_of_S.
  done.
Qed.

Lemma passes_vectors k : vectors (passes N zero s0 k) = vectors s0.
Proof.
  induction k as [|k IH]; [done|].
  by rewrite passes_S, pass_body_vectors.
Qed.

Lemma passes_lengths k :
  length (gh (passes N zero s0 k)) = cells ∧
  length (bt (passes N zero s0 k)) = length (bt s0) ∧
  length (pg (passes N zero s0 k)) = RADIX ∧
  length (go (passes N zero s0 k)) = cells.
Proof.
  induction k as [|k (IH1 & IH2 & IH3 & IH4)]; [done|].
  destruct (passes_roles k) as [Hi _].
  rewrite passes_S.
  rewrite pass_body_gh by (rewrite Hi; apply key_buffer_src).
  rewrite pass_body_bt, pass_body_pg, pass_body_go.
  unfold gh_after.
  by rewrite length_blit_take, length_compute_bt, length_compute_pg,
    length_compute_go.
Qed.

Hypothesis h2d_range : is_u64 (total_host_to_device s0).
Hypothesis d2h_range : is_u64 (total_device_to_host s0).

Lemma passes_counters k :
  total_host_to_device (passes N zero s0 k)
  = u64 (total_host_to_device s0 + Z.of_nat k * pass_upload cells) ∧
  total_device_to_host (passes N zero s0 k)
  = u64 (total_device_to_host s0 + Z.of_nat k * pass_download cells).
Proof.
  induction k as [|k [IHu IHd]].
  - rewrite !Z.mul_0_l, !Z.add_0_r, !u64_small by done. done.
  - destruct (passes_lengths k) as (L1 & _ & L3 & L4).
    destruct (passes_lengths (S k)) as (_ & _ & L3' & L4').
    rewrite passes_S in *.
    rewrite pass_body_h2d, pass_body_d2h, IHu, IHd.
    rewrite (bytes_uint_length zero cells), (bytes_uint_length _ RADIX L3'),
      (bytes_uint_length _ cells L4'), (bytes_uint_length _ cells L1) by done.
    rewrite !u64_add_l.
    replace (Z.of_nat (S k) * pass_upload cells)%Z
      with (Z.of_nat k * pass_upload cells + pass_upload cells)%Z by lia.
    replace (Z.of_nat (S k) * pass_download cells)%Z
      with (Z.of_nat k * pass_download cells + pass_download cells)%Z by lia.
    generalize (Z.of_nat k * pass_upload cells)%Z.
    generalize (Z.of_nat k * pass_download cells)%Z.
    intros x y. unfold pass_upload, pass_download.
    rewrite u64_add3. split; f_equal; lia.
Qed.

Lemma passes_transfers k :
  transfers (passes N zero s0 k)
  = transfers s0 ++ mjoin (replicate k (pass_transfers cells)).
Proof.
  induction k as [|k IH].
  - simpl. by rewrite app_nil_r.
  - destruct (passes_lengths k) as (L1 & _ & L3 & L4).
    destruct (passes_lengths (S k)) as (_ & _ & L3' & L4').
    rewrite passes_S in *.
    rewrite pass_body_transfers, IH.
    rewrite (bytes_uint_length zero cells), (bytes_uint_length _ RADIX L3'),
      (bytes_uint_length _ cells L4'), (bytes_uint_length _ cells L1) by done.
    rewrite <- app_assoc. f_equal.
    by rewrite join_replicate_S.
Qed.
End loop_any_stages.

(** ** The pass loop with the stages of the design document *)

Lemma stage_count_arg N : kernel_arg_u32 N = Z.of_nat (stage_count N).
Proof.
  unfold stage_count. rewrite Z2Nat.id; [done|].
  rewrite kernel_arg_u32_spec. apply u32_range.
Qed.

Section spec_pass.
Context (N : nat) (s : state) (p : nat).
Hypothesis N_fits : fits_size_t N.
Hypothesis Hready : ready N s.
Local Abbreviation zero := (replicate (NUM_GROUPS N * RADIX) 0%Z).
Local Abbreviation s' := (@pass_body spec_stages N zero s p).
Local Abbreviation keys := (take (stage_count N) (dev s (buf_in s))).

Lemma ready_length_in : length (dev s (buf_in s)) = N.
Proof. destruct Hready. by destruct ready_in0 as [-> | ->]. Qed.

Lemma ready_length_out : length (dev s (buf_out s)) = N.
Proof. destruct Hready. by destruct ready_out0 as [-> | ->]. Qed.

Lemma spec_pass_gh :
  gh s' = spec_histogram (dev s (buf_in s)) zero
            (kernel_arg_u32 N) (shift_of p).
Proof.
  destruct Hready.
  rewrite pass_body_gh by done.
  unfold gh_after, hist_mem. cbn [build_group_histogram spec_stages].
  rewrite (blit_same_length zero) by (rewrite length_replicate; lia).
  rewrite take_ge
    by (rewrite length_spec_histogram, length_replicate; lia).
  apply blit_same_length.
  rewrite length_spec_histogram, length_replicate. lia.
Qed.

Lemma spec_pass_gh_exact g d :
  g < NUM_GROUPS N → d < RADIX →
  elt (gh s') (g * RADIX + d)
  = Z.of_nat (count_digit (shift_of p) d (group_keys keys g)).
Proof.
  intros Hg Hd. rewrite spec_pass_gh.
  rewrite spec_histogram_zero by (done || by apply cell_lt). done.
Qed.

Lemma spec_pass_out :
  dev s' (buf_out s)
  = lsd_pass p keys ++ drop (stage_count N) (dev s (buf_out s)).
Proof.
  pose proof Hready as []. unfold lsd_pass.
  rewrite pass_body_dev_out by done.
  rewrite pass_body_pg, pass_body_go, pass_body_bt.
  cbn [scatter_stable spec_stages].
  rewrite !blit_same_length
    by (rewrite ?length_compute_pg, ?length_compute_go; lia).
  rewrite stage_count_arg.
  apply (spec_scatter_exact (shift_of p) (dev s (buf_in s))
           (gh (@pass_body spec_stages N zero s p)) N (stage_count N)).
  - apply spec_pass_gh_exact.
  - rewrite <- stage_count_arg. rewrite kernel_arg_u32_spec.
    apply u32_range.
  - apply kernel_arg_u32_le.
  - done.
  - apply ready_length_in.
  - lia.
  - lia.
  - lia.
  - apply ready_length_out.
Qed.

Lemma spec_pass_in : dev s' (buf_in s) = dev s (buf_in s).
Proof. destruct Hready. by rewrite pass_body_dev_in. Qed.

Lemma spec_pass_ready : ready N s'.
Proof.
  pose proof Hready as [].
  assert (length (dev s' (buf_out s)) = N) as Lout.
  { rewrite pass_body_dev_out by done.
    cbn [scatter_stable spec_stages].
    rewrite length_spec_scatter. apply ready_length_out. }
  assert (length (dev s' (buf_in s)) = N) as Lin.
  { rewrite spec_pass_in. apply ready_length_in. }
  assert (length (gh s') = NUM_GROUPS N * RADIX) as Lgh.
  { rewrite spec_pass_gh, length_spec_histogram.
    by rewrite length_replicate. }
  split.
  - by rewrite pass_body_buf_in.
  - by rewrite pass_body_buf_out.
  - rewrite pass_body_buf_in, pass_body_buf_out. congruence.
  - destruct ready_in0 as [Hi|Hi], ready_out0 as [Ho|Ho]; congruence.
  - destruct ready_in0 as [Hi|Hi], ready_out0 as [Ho|Ho]; congruence.
  - rewrite pass_body_dev_gh by done. unfold hist_mem.
    cbn [build_group_histogram spec_stages]. rewrite length_spec_histogram.
    rewrite (blit_same_length zero) by (rewrite length_replicate; lia).
    by rewrite length_replicate.
  - rewrite pass_body_dev_pg by done.
    rewrite blit_same_length; rewrite pass_body_pg, length_compute_pg; lia.
  - rewrite pass_body_dev_go by done.
    rewrite blit_same_length; rewrite pass_body_go, length_compute_go; lia.
  - done.
  - by rewrite pass_body_bt, length_compute_bt.
  - by rewrite pass_body_pg, length_compute_pg.
  - by rewrite pass_body_go, length_compute_go.
Qed.
End spec_pass.

Section spec_loop.
Context (N : nat) (s0 : state).
Hypothesis N_fits : fits_size_t N.
Hypothesis Hready : ready N s0.
Hypothesis roles : buf_in s0 = KeysA ∧ buf_out s0 = KeysB.
Local Abbreviation zero := (replicate (NUM_GROUPS N * RADIX) 0%Z).
Local Abbreviation after k := (@passes spec_stages N zero s0 k).

Lemma spec_passes_ready k : ready N (after k).
Proof.
  induction k as [|k IH]; [done|].
  rewrite passes_S. by apply spec_pass_ready.
Qed.

(** The source buffer of pass [k] holds the keys sorted on their [k] low
    digits. *)
Lemma spec_passes_src k :
  take (stage_count N) (dev (after k) (buf_in (after k)))
  = lsd k (take (stage_count N) (dev s0 KeysA)).
Proof.
  induction k as [|k IH].
  - unfold passes, lsd. cbn [seq foldl]. by rewrite (proj1 roles).
  - rewrite lsd_S, <- IH.
    pose proof (spec_passes_ready k) as Hk.
    pose proof (spec_pass_out N (after k) k N_fits Hk) as Hout.
    pose proof (ready_length_in N (after k) Hk) as Hlen.
    rewrite passes_S, pass_body_buf_in, Hout.
    rewrite take_app_length'; [done|].
    rewrite length_lsd_pass, length_take.
    pose proof (kernel_arg_u32_le N). unfold stage_count. lia.
Qed.
End spec_loop.

(** ** Entry and exit *)

Lemma length_host_read U v n : length (host_read U v n) = n.
Proof. unfold host_read. by rewrite length_fmap, length_seq. Qed.

Lemma host_read_all U v : host_read U v (length v) = v.
Proof.
  apply list_eq. intros i. unfold host_read.
  rewrite list_lookup_fmap.
  destruct (decide (i < length v)) as [Hi|Hi].
  - rewrite lookup_seq_lt by done. simpl.
    destruct (lookup_lt_is_Some_2 v i Hi) as [x Hx]. by rewrite Hx.
  - rewrite lookup_seq_ge by lia. simpl. symmetry. apply lookup_ge_None. lia.
Qed.

Lemma length_fresh_buffer U m n : length (fresh_buffer U m n) = n.
Proof. unfold fresh_buffer. by rewrite length_fmap, length_seq. Qed.

Section setup_facts.
Context `{Stages} (U : unspecified) (in_ out : vec_ref) (N : nat) (s : state).

Lemma setup_ready : ready N (setup U in_ out N s).
Proof.
  split; state_cbn;
    rewrite ?length_host_read, ?length_fresh_buffer, ?length_replicate;
    unfold key_buffer; auto.
Qed.

Lemma setup_roles :
  buf_in (setup U in_ out N s) = KeysA ∧ buf_out (setup U in_ out N s) = KeysB.
Proof. done. Qed.

Lemma setup_vectors :
  vectors (setup U in_ out N s)
  = <[out := resize N 0%Z (vectors s out)]> (vectors s).
Proof. done. Qed.

Lemma setup_transfers :
  transfers (setup U in_ out N s)
  = transfers s ++ [Transfer HostToDevice (u64 (Z.of_nat N * SZ_ULONG))].
Proof. done. Qed.

Lemma setup_input :
  N = length (vectors s in_) →
  dev (setup U in_ out N s) KeysA = vectors s in_.
Proof.
  intros HN. state_cbn.
  destruct (decide (out = in_)) as [->|Hne].
  - rewrite fn_lookup_insert.
    rewrite resize_all_alt by done. subst N. apply host_read_all.
  - rewrite fn_lookup_insert_ne by done. subst N. apply host_read_all.
Qed.

Lemma loop_state_vectors k :
  vectors (loop_state U in_ out N s k)
  = <[out := resize N 0%Z (vectors s out)]> (vectors s).
Proof.
  unfold loop_state.
  rewrite (passes_vectors N (replicate (NUM_GROUPS N * RADIX) 0%Z)).
  apply setup_vectors.
Qed.

Lemma loop_state_roles k :
  buf_in (loop_state U in_ out N s k) = src_of k ∧
  buf_out (loop_state U in_ out N s k) = dst_of k.
Proof. apply passes_roles, setup_roles. Qed.

(** The state in which the call ends. *)
Lemma run_final :
  final (run_opencl_radix U in_ out N s)
  = read_back out N (loop_state U in_ out N s PASSES).
Proof.
  unfold run_opencl_radix, loop_state.
  by destruct (verify_report _ _ _).
Qed.

Lemma run_report :
  (console (run_opencl_radix U in_ out N s),
   term (run_opencl_radix U in_ out N s))
  = verify_report
      (vectors (read_back out N (loop_state U in_ out N s PASSES)) out)
      (cpu_reference (vectors s in_))
      (read_back out N (loop_state U in_ out N s PASSES)).
Proof.
  unfold run_opencl_radix, loop_state. cbv zeta.
  by destruct (verify_report _ _ _).
Qed.

Lemma read_back_vectors (t : state) :
  vectors (read_back out N t)
  = <[out := blit (take (length (vectors t out)) (dev t (buf_in t)))
               (vectors t out)]> (vectors t).
Proof. done. Qed.

(** What [out] holds when the call ends. *)
Lemma run_out :
  vectors (final (run_opencl_radix U in_ out N s)) out
  = blit (take N (dev (loop_state U in_ out N s PASSES)
                    (buf_in (loop_state U in_ out N s PASSES))))
      (resize N 0%Z (vectors s out)).
Proof.
  rewrite run_final, read_back_vectors, fn_lookup_insert.
  rewrite loop_state_vectors, fn_lookup_insert, length_resize. done.
Qed.

Lemma run_other v :
  v ≠ out →
  vectors (final (run_opencl_radix U in_ out N s)) v = vectors s v.
Proof.
  intros Hv.
  rewrite run_final, read_back_vectors, fn_lookup_insert_ne by done.
  by rewrite loop_state_vectors, fn_lookup_insert_ne.
Qed.

Lemma length_run_out :
  length (vectors (final (run_opencl_radix U in_ out N s)) out) = N.
Proof.
  rewrite run_out.
  rewrite <- (length_resize (vectors s out) N 0%Z) at 1.
  rewrite length_blit_take. apply length_resize.
Qed.
End setup_facts.

(** ** A call with the stages of the design document *)

Lemma small_fits N : (Z.of_nat N < 2 ^ 32)%Z → fits_size_t N.
Proof. unfold fits_size_t. lia. Qed.

Lemma stage_count_small N : (Z.of_nat N < 2 ^ 32)%Z → stage_count N = N.
Proof. apply kernel_arg_u32_small. Qed.

Lemma stage_count_lt N : (Z.of_nat (stage_count N) < 2 ^ 32)%Z.
Proof. apply kernel_arg_u32_lt. Qed.

Section spec_call.
Context (U : unspecified) (in_ out : vec_ref) (N : nat) (s : state).
Local Abbreviation at_ k := (@loop_state spec_stages U in_ out N s k).
Local Abbreviation source k := (dev (at_ k) (buf_in (at_ k))).

Lemma at_ready k : ready N (at_ k).
Proof.
  unfold loop_state. apply spec_passes_ready.
  apply setup_ready.
Qed.

Lemma at_S k :
  at_ (S k)
  = @pass_body spec_stages N (replicate (NUM_GROUPS N * RADIX) 0%Z) (at_ k) k.
Proof. unfold loop_state. apply passes_S. Qed.

Lemma length_source k : length (source k) = N.
Proof. apply ready_length_in, at_ready. Qed.

(** The keys the stages of pass [k] work on. *)
Local Abbreviation keys k := (take (stage_count N) (source k)).

Lemma length_keys_le k : length (keys k) ≤ N.
Proof. rewrite length_take, length_source. lia. Qed.

Lemma keys_small k : (Z.of_nat (length (keys k)) < 2 ^ 32)%Z.
Proof.
  rewrite length_take. pose proof (stage_count_lt N). lia.
Qed.

(** The histogram read back in pass [k] is exact. *)
Lemma gh_exact k g d :
  g < NUM_GROUPS N → d < RADIX →
  elt (gh (at_ (S k))) (g * RADIX + d)
  = Z.of_nat (count_digit (shift_of k) d (group_keys (keys k) g)).
Proof.
  intros Hg Hd. rewrite at_S.
  by apply (spec_pass_gh_exact N (at_ k) k (at_ready k)).
Qed.

Lemma bt_at k :
  bt (at_ (S k)) = compute_bt (gh (at_ (S k))) (NUM_GROUPS N) (bt (at_ k)).
Proof. rewrite at_S. apply pass_body_bt. Qed.

Lemma pg_at k : pg (at_ (S k)) = compute_pg (bt (at_ (S k))) (pg (at_ k)).
Proof. rewrite at_S. apply pass_body_pg. Qed.

Lemma go_at k :
  go (at_ (S k)) = compute_go (gh (at_ (S k))) (NUM_GROUPS N) (go (at_ k)).
Proof. rewrite at_S. apply pass_body_go. Qed.

(** The per-group offsets are the exact prefix sums of the histogram
    columns. *)
Lemma go_prefix k g d :
  g < NUM_GROUPS N → d < RADIX →
  elt (go (at_ (S k))) (g * RADIX + d)
  = sumZ (column (gh (at_ (S k))) d g).
Proof.
  intros Hg Hd. rewrite go_at.
  pose proof (at_ready k) as [].
  rewrite (go_exact (shift_of k) (keys k) (gh (at_ (S k))) (NUM_GROUPS N))
    by (done || lia || apply gh_exact || apply keys_small).
  symmetry.
  apply (column_exact (shift_of k) (keys k) (gh (at_ (S k))) (NUM_GROUPS N));
    (done || lia || apply gh_exact).
Qed.

Lemma bt_column k d :
  d < RADIX →
  elt (bt (at_ (S k))) d
  = sumZ (column (gh (at_ (S k))) d (NUM_GROUPS N)).
Proof.
  intros Hd. rewrite bt_at.
  pose proof (at_ready k) as [].
  destruct (compute_bt_spec (gh (at_ (S k))) (NUM_GROUPS N) (bt (at_ k)))
    as [_ Hbt]; [lia|].
  rewrite Hbt by done.
  rewrite (bucket_sum_exact (shift_of k) (keys k) (gh (at_ (S k))) (NUM_GROUPS N))
    by (done || lia || apply gh_exact || apply keys_small).
  symmetry.
  apply (column_exact (shift_of k) (keys k) (gh (at_ (S k))) (NUM_GROUPS N));
    (done || lia || apply gh_exact).
Qed.

Hypothesis Hvalid : valid_input in_ N s.

Lemma keys_all k : keys k = source k.
Proof.
  destruct Hvalid.
  rewrite stage_count_small by done.
  apply take_ge. by rewrite length_source.
Qed.

Lemma groups_cover k : length (keys k) ≤ NUM_GROUPS N * LOCAL_SZ.
Proof.
  destruct Hvalid.
  pose proof (NUM_GROUPS_cover N (small_fits N valid_count0)).
  pose proof (length_keys_le k). lia.
Qed.

Lemma bt_count k d :
  d < RADIX →
  elt (bt (at_ (S k))) d = Z.of_nat (count_digit (shift_of k) d (source k)).
Proof.
  intros Hd. rewrite bt_at, <- keys_all.
  pose proof (at_ready k) as [].
  destruct (compute_bt_spec (gh (at_ (S k))) (NUM_GROUPS N) (bt (at_ k)))
    as [_ Hbt]; [lia|].
  rewrite Hbt by done.
  apply (bucket_total_exact (shift_of k) (keys k) (gh (at_ (S k))) (NUM_GROUPS N));
    (done || apply gh_exact || apply keys_small || apply groups_cover).
Qed.

Lemma pg_count k d :
  d < RADIX →
  elt (pg (at_ (S k))) d
  = Z.of_nat (length (filter (λ key, digit (shift_of k) key < d) (source k))).
Proof.
  intros Hd. rewrite pg_at, bt_at, <- keys_all.
  pose proof (at_ready k) as [].
  apply (pg_exact (shift_of k) (keys k) (gh (at_ (S k))) (NUM_GROUPS N));
    (done || lia || apply gh_exact || apply keys_small || apply groups_cover).
Qed.

(** The source buffer of pass [k] is the input after [k] distribution
    passes. *)
Lemma source_lsd k : source k = lsd k (vectors s in_).
Proof.
  destruct Hvalid.
  pose proof (spec_passes_src N (setup U in_ out N s)
                (small_fits N valid_count0)
                (setup_ready U in_ out N s)
                (setup_roles U in_ out N s) k) as Hsrc.
  rewrite stage_count_small in Hsrc by done.
  rewrite setup_input in Hsrc by done.
  rewrite (take_ge (vectors s in_)) in Hsrc by lia.
  rewrite <- Hsrc. symmetry. apply take_ge.
  by rewrite length_source.
Qed.

(** The index the scatter stage of pass [k] computes. *)
Lemma placed_slot k i key :
  source k !! i = Some key →
  @placed spec_stages U in_ out N s k i
  = slot (digit (shift_of k)) (source k) i key.
Proof.
  intros Hi. unfold placed. cbv zeta.
  rewrite (elt_lookup _ _ _ Hi).
  pose proof (at_ready k) as [].
  assert (dev (at_ (S k)) buf_pg = pg (at_ (S k))) as ->.
  { rewrite at_S at 1. rewrite pass_body_dev_pg by done. rewrite <- at_S.
    apply blit_same_length. rewrite pg_at, length_compute_pg. lia. }
  assert (dev (at_ (S k)) buf_go = go (at_ (S k))) as ->.
  { rewrite at_S at 1. rewrite pass_body_dev_go by done. rewrite <- at_S.
    apply blit_same_length. rewrite go_at, length_compute_go. lia. }
  rewrite pg_at, go_at, bt_at.
  transitivity (slot (digit (shift_of k)) (keys k) i key);
    [|by rewrite keys_all].
  apply (placement_slot (shift_of k) (keys k) (gh (at_ (S k))) (NUM_GROUPS N));
    (done || lia || apply gh_exact || apply keys_small || apply groups_cover
     || by rewrite keys_all).
Qed.

(** The destination buffer of pass [k], once the pass is over. *)
Lemma destination k :
  dev (at_ (S k)) (buf_out (at_ k)) = lsd_pass k (source k).
Proof.
  destruct Hvalid.
  rewrite at_S.
  rewrite (spec_pass_out N (at_ k) k (small_fits N valid_count0) (at_ready k)).
  cbv zeta. rewrite keys_all.
  rewrite stage_count_small by done.
  rewrite drop_ge; [apply app_nil_r|].
  by rewrite (ready_length_out N (at_ k) (at_ready k)).
Qed.

(** The sorted keys reach [out]. *)
Lemma run_out_sorted :
  vectors (final (@run_opencl_radix spec_stages U in_ out N s)) out
  = merge_sort Z.le (vectors s in_).
Proof.
  destruct Hvalid.
  rewrite (@run_out spec_stages).
  rewrite take_ge by (by rewrite length_source).
  rewrite blit_same_length by (by rewrite length_source, length_resize).
  rewrite source_lsd. by apply lsd_sorts.
Qed.
End spec_call.

(** * The properties of the design document *)

Lemma verify_report_pass out cpu s :
  out = cpu →
  verify_report out cpu s
  = ([Cout "PASS\n";
      Cout "Total H→D bytes: "; CoutNum (total_host_to_device s); Cout "\n";
      Cout "Total D→H bytes: "; CoutNum (total_device_to_host s); Cout "\n"],
     Returned).
Proof.
  intros ->. unfold verify_report.
  rewrite bool_decide_eq_false_2; [done|]. by intros [].
Qed.

Lemma verify_report_mismatch out cpu s :
  out ≠ cpu → verify_report out cpu s = ([Cerr "Mismatch!\n"], Exited 1).
Proof.
  intros Hne. unfold verify_report. by rewrite bool_decide_eq_true_2.
Qed.

(** C1.  For every valid input (a vector of [N] 64-bit keys, [N] below 2^32),
    the buffer that [run_opencl_radix] leaves in [out] is a permutation of the
    input, is sorted in non-decreasing order, and is equal, element by
    element, to the reference sort of the input; the verification passes. *)
Theorem run_opencl_radix_sorts U in_ out N s :
  valid_input in_ N s →
  let r := @run_opencl_radix spec_stages U in_ out N s in
  vectors (final r) out ≡ₚ vectors s in_ ∧
  StronglySorted Z.le (vectors (final r) out) ∧
  vectors (final r) out = cpu_reference (vectors s in_) ∧
  term r = Returned.
Proof.
  intros Hvalid r.
  assert (vectors (final r) out = merge_sort Z.le (vectors s in_)) as Hout
    by (by apply run_out_sorted).
  split; [|split; [|split]].
  - rewrite Hout. apply merge_sort_Permutation.
  - rewrite Hout. apply StronglySorted_merge_sort; apply _.
  - done.
  - pose proof (@run_report spec_stages U in_ out N s) as Hrep.
    rewrite <- (@run_final spec_stages) in Hrep. fold r in Hrep.
    rewrite verify_report_pass in Hrep by done.
    by injection Hrep.
Qed.

(** C3.  In every pass of a call on a valid input, each bucket total is the
    sum of the histogram column of its digit over all groups, the bucket
    totals add up to [N], and [pg] is the exclusive prefix sum of the bucket
    totals in ascending digit order. *)
Theorem bucket_totals_and_global_prefix U in_ out N s p :
  valid_input in_ N s → p < PASSES →
  let sp := @loop_state spec_stages U in_ out N s (S p) in
  (∀ d, d < RADIX →
     elt (bt sp) d = sumZ (column (gh sp) d (NUM_GROUPS N))) ∧
  sumZ (elt (bt sp) <$> seq 0 RADIX) = Z.of_nat N ∧
  elt (pg sp) 0 = 0%Z ∧
  (∀ d, 1 ≤ d < RADIX →
     elt (pg sp) d = (elt (pg sp) (d - 1) + elt (bt sp) (d - 1))%Z).
Proof.
  intros Hvalid Hp sp.
  split; [|split; [|split]].
  - intros d Hd. by apply bt_column.
  - transitivity (sumZ ((λ d, Z.of_nat (count_digit (shift_of p) d
        (dev (@loop_state spec_stages U in_ out N s p)
           (buf_in (@loop_state spec_stages U in_ out N s p))))) <$> seq 0 RADIX)).
    + f_equal. apply list_fmap_ext. intros i d Hd.
      apply lookup_seq in Hd as [-> Hd]. by apply bt_count.
    + rewrite count_digits_all. f_equal. apply length_source.
  - unfold sp. rewrite (pg_count U in_ out N s Hvalid p 0) by (rewrite RADIX_eq; lia).
    rewrite <- (Permutation_length (buckets_below _ 0 _)). done.
  - intros d Hd. unfold sp.
    rewrite !(pg_count U in_ out N s Hvalid p) by lia.
    rewrite (bt_count U in_ out N s Hvalid p) by lia.
    pose proof (Permutation_length (filter_below_S (digit (shift_of p)) (d - 1)
      (dev (@loop_state spec_stages U in_ out N s p)
         (buf_in (@loop_state spec_stages U in_ out N s p))))) as E.
    rewrite length_app in E. replace (S (d - 1)) with d in E by lia.
    unfold count_digit. lia.
Qed.

(** C4.  In every pass and for every digit, the per-group offsets are what a
    running offset gives that starts at 0 and is walked over the groups in
    increasing order: group [g] is assigned the sum of the histogram counts of
    the groups before it, and the offset then grows by the count of
    group [g]. *)
Theorem group_offsets_are_running_sums U in_ out N s p g d :
  p < PASSES → g < NUM_GROUPS N → d < RADIX →
  let sp := @loop_state spec_stages U in_ out N s (S p) in
  elt (go sp) (g * RADIX + d) = sumZ (column (gh sp) d g) ∧
  elt (go sp) (0 * RADIX + d) = 0%Z ∧
  (S g < NUM_GROUPS N →
     elt (go sp) (S g * RADIX + d)
     = (elt (go sp) (g * RADIX + d) + elt (gh sp) (g * RADIX + d))%Z).
Proof.
  intros Hp Hg Hd sp. unfold sp.
  split; [|split].
  - by apply go_prefix.
  - rewrite go_prefix by (done || lia). done.
  - intros HS. rewrite !go_prefix by done.
    by rewrite column_S, sumZ_snoc.
Qed.

(** ** Following the keys through the passes *)

Section tracking.
Context (U : unspecified) (in_ out : vec_ref) (N : nat) (s : state).
Local Abbreviation at_ k := (@loop_state spec_stages U in_ out N s k).
Local Abbreviation source k := (dev (at_ k) (buf_in (at_ k))).
Local Abbreviation tracked_ k i := (@tracked spec_stages U in_ out N s k i).
Local Abbreviation placed_ k i := (@placed spec_stages U in_ out N s k i).

Lemma tracked_S k i : tracked_ (S k) i = placed_ k (tracked_ k i).
Proof. unfold tracked. by rewrite seq_S, foldl_snoc. Qed.

Lemma at_buf_in_S k : buf_in (at_ (S k)) = buf_out (at_ k).
Proof. by rewrite at_S, pass_body_buf_in. Qed.

Lemma at_buf_out_S k : buf_out (at_ (S k)) = buf_in (at_ k).
Proof. by rewrite at_S, pass_body_buf_out. Qed.

(** The uploaded offsets are the host arrays. *)
Lemma uploaded_pg k : dev (at_ (S k)) buf_pg = pg (at_ (S k)).
Proof.
  pose proof (at_ready U in_ out N s k) as [].
  rewrite at_S at 1. rewrite pass_body_dev_pg by done. rewrite <- at_S.
  apply blit_same_length. rewrite pg_at, length_compute_pg. lia.
Qed.

Lemma uploaded_go k : dev (at_ (S k)) buf_go = go (at_ (S k)).
Proof.
  pose proof (at_ready U in_ out N s k) as [].
  rewrite at_S at 1. rewrite pass_body_dev_go by done. rewrite <- at_S.
  apply blit_same_length. rewrite go_at, length_compute_go. lia.
Qed.

Hypothesis Hvalid : valid_input in_ N s.

Lemma source_S k : source (S k) = lsd_pass k (source k).
Proof. rewrite at_buf_in_S. by apply destination. Qed.

Lemma source_0 : source 0 = vectors s in_.
Proof. by rewrite source_lsd. Qed.

Lemma placed_lookup k i key :
  source k !! i = Some key → source (S k) !! placed_ k i = Some key.
Proof.
  intros Hi. rewrite source_S, (placed_slot U in_ out N s Hvalid k i key Hi).
  apply buckets_lookup_slot; [done | apply digit_lt].
Qed.

Lemma tracked_lookup k i x :
  vectors s in_ !! i = Some x → source k !! tracked_ k i = Some x.
Proof.
  intros Hi. induction k as [|k IH].
  - by rewrite source_0.
  - rewrite tracked_S. by apply placed_lookup.
Qed.

Lemma tracked_stable k i j x :
  i < j → vectors s in_ !! i = Some x → vectors s in_ !! j = Some x →
  tracked_ k i < tracked_ k j.
Proof.
  intros Hij Hi Hj. induction k as [|k IH]; [done|].
  rewrite !tracked_S.
  pose proof (tracked_lookup k i x Hi) as Hti.
  pose proof (tracked_lookup k j x Hj) as Htj.
  rewrite (placed_slot U in_ out N s Hvalid k _ x Hti).
  rewrite (placed_slot U in_ out N s Hvalid k _ x Htj).
  by apply (slot_stable _ _ _ _ x x).
Qed.
End tracking.

(** C2.  In each pass the scatter stage writes every key to index
    [pg[digit] + go[group, digit] + rank], [pg] and [go] being the arrays the
    host computed in that pass and [rank] the position of the key among the
    keys of its group with the same digit, in index order.  Consequently equal
    keys leave the sort in the order in which they entered it: the positions
    of the keys, followed pass after pass, keep the order of equal keys. *)
Theorem scatter_is_stable U in_ out N s :
  valid_input in_ N s →
  let at_ k := @loop_state spec_stages U in_ out N s k in
  let r := @run_opencl_radix spec_stages U in_ out N s in
  (∀ p i key, p < PASSES →
     dev (at_ p) (buf_in (at_ p)) !! i = Some key →
     let d := digit (shift_of p) key in
     let dest := Z.to_nat (elt (pg (at_ (S p))) d
                   + elt (go (at_ (S p))) (i / LOCAL_SZ * RADIX + d)
                   + Z.of_nat (rank_in_group (shift_of p)
                                 (dev (at_ p) (buf_in (at_ p))) i key)) in
     @placed spec_stages U in_ out N s p i = dest ∧
     dev (at_ (S p)) (buf_out (at_ p)) !! dest = Some key) ∧
  (∀ i x, vectors s in_ !! i = Some x →
     vectors (final r) out !! @tracked spec_stages U in_ out N s PASSES i
     = Some x) ∧
  (∀ i j x, i < j →
     vectors s in_ !! i = Some x → vectors s in_ !! j = Some x →
     @tracked spec_stages U in_ out N s PASSES i
     < @tracked spec_stages U in_ out N s PASSES j).
Proof.
  intros Hvalid at_ r. subst at_ r. cbv beta. split; [|split].
  - intros p i key Hp Hi d dest.
    assert (@placed spec_stages U in_ out N s p i = dest) as Hdest.
    { unfold placed, dest, d. cbv zeta.
      rewrite uploaded_pg, uploaded_go, (elt_lookup _ _ _ Hi).
      unfold placement.
      rewrite (keys_all U in_ out N s Hvalid p). done. }
    split; [done|]. rewrite <- Hdest.
    rewrite <- at_buf_in_S. by apply placed_lookup.
  - intros i x Hi.
    rewrite (run_out_sorted U in_ out N s Hvalid).
    rewrite <- (lsd_sorts (vectors s in_)) by apply Hvalid.
    rewrite <- (source_lsd U in_ out N s Hvalid).
    by apply tracked_lookup.
  - intros i j x Hij Hi Hj. by apply (tracked_stable U in_ out N s Hvalid _ _ _ x).
Qed.

(** C8.  During every pass the source and the destination are different
    buffers (whatever the stages are), the two roles are exchanged by each of
    the [PASSES] passes, and after the loop the current source buffer is what
    is copied to [out]; on a valid input it holds the sorted keys. *)
Theorem double_buffering U in_ out N s :
  (∀ (B : Stages) p, p < PASSES →
     let at_ k := @loop_state B U in_ out N s k in
     buf_in (at_ p) ≠ buf_out (at_ p) ∧
     buf_in (at_ (S p)) = buf_out (at_ p) ∧
     buf_out (at_ (S p)) = buf_in (at_ p)) ∧
  (let after := @loop_state spec_stages U in_ out N s PASSES in
   vectors (final (@run_opencl_radix spec_stages U in_ out N s)) out
   = dev after (buf_in after) ∧
   (valid_input in_ N s →
    dev after (buf_in after) = cpu_reference (vectors s in_))).
Proof.
  split.
  - intros B p Hp at_. unfold at_.
    destruct (@loop_state_roles B U in_ out N s p) as [Hi Ho].
    destruct (@loop_state_roles B U in_ out N s (S p)) as [Hi' Ho'].
    rewrite Hi, Ho, Hi', Ho', src_of_S, dst_of_S.
    split; [apply src_dst_distinct | done].
  - intros after.
    assert (vectors (final (@run_opencl_radix spec_stages U in_ out N s)) out
            = dev after (buf_in after)) as Hout.
    { rewrite (@run_out spec_stages). fold after.
      rewrite take_ge by (unfold after; by rewrite length_source).
      apply blit_same_length.
      unfold after. by rewrite length_source, length_resize. }
    split; [done|]. intros Hvalid. rewrite <- Hout.
    by apply run_out_sorted.
Qed.

(** ** Transfer accounting, for any pair of stages *)

Section accounting.
Context `{Stages} (U : unspecified) (in_ out : vec_ref) (N : nat) (s : state).
Local Abbreviation cells := (NUM_GROUPS N * RADIX).
Local Abbreviation r := (run_opencl_radix U in_ out N s).

Lemma read_back_h2d t :
  total_host_to_device (read_back out N t) = total_host_to_device t.
Proof. done. Qed.

Lemma read_back_d2h t :
  total_device_to_host (read_back out N t)
  = u64 (total_device_to_host t + u64 (Z.of_nat N * SZ_ULONG)).
Proof. done. Qed.

Lemma read_back_transfers t :
  transfers (read_back out N t)
  = transfers t ++ [Transfer DeviceToHost (u64 (Z.of_nat N * SZ_ULONG))].
Proof. done. Qed.

Lemma loop_state_transfers k :
  transfers (loop_state U in_ out N s k)
  = (transfers s ++ [Transfer HostToDevice (u64 (Z.of_nat N * SZ_ULONG))])
    ++ mjoin (replicate k (pass_transfers cells)).
Proof.
  unfold loop_state.
  rewrite (passes_transfers N cells (replicate cells 0%Z) (setup U in_ out N s));
    try done; state_cbn; by rewrite length_replicate.
Qed.

(** Every movement of the call, in order: the input upload made by
    [clCreateBuffer], the four transfers of each pass, the final read. *)
Lemma run_transfers :
  transfers (final r)
  = transfers s
    ++ [Transfer HostToDevice (u64 (Z.of_nat N * SZ_ULONG))]
    ++ mjoin (replicate PASSES (pass_transfers cells))
    ++ [Transfer DeviceToHost (u64 (Z.of_nat N * SZ_ULONG))].
Proof.
  rewrite run_final, read_back_transfers, loop_state_transfers.
  by rewrite <- !app_assoc.
Qed.

Hypothesis h2d_range : is_u64 (total_host_to_device s).
Hypothesis d2h_range : is_u64 (total_device_to_host s).

Lemma loop_state_counters k :
  total_host_to_device (loop_state U in_ out N s k)
  = u64 (total_host_to_device s + Z.of_nat k * pass_upload cells) ∧
  total_device_to_host (loop_state U in_ out N s k)
  = u64 (total_device_to_host s + Z.of_nat k * pass_download cells).
Proof.
  unfold loop_state.
  apply (passes_counters N cells (replicate cells 0%Z) (setup U in_ out N s));
    try done; state_cbn; by rewrite length_replicate.
Qed.

(** The counters when the call ends: the host-to-device counter has grown
    by the uploads of the passes only. *)
Lemma run_counters :
  total_host_to_device (final r)
  = u64 (total_host_to_device s + Z.of_nat PASSES * pass_upload cells) ∧
  total_device_to_host (final r)
  = u64 (total_device_to_host s + Z.of_nat PASSES * pass_download cells
         + u64 (Z.of_nat N * SZ_ULONG)).
Proof.
  rewrite run_final, read_back_h2d, read_back_d2h.
  destruct (loop_state_counters PASSES) as [-> ->].
  split; [done|]. by rewrite u64_add_l.
Qed.
End accounting.

Lemma bytes_moved_app d l k :
  bytes_moved d (l ++ k) = (bytes_moved d l + bytes_moved d k)%Z.
Proof. unfold bytes_moved. by rewrite filter_app, fmap_app, sumZ_app. Qed.

Lemma bytes_moved_replicate d k l :
  bytes_moved d (mjoin (replicate k l)) = (Z.of_nat k * bytes_moved d l)%Z.
Proof.
  induction k as [|k IH]; [done|].
  rewrite join_replicate_S, bytes_moved_app, IH. lia.
Qed.

Lemma pass_transfers_upload cells :
  bytes_moved HostToDevice (pass_transfers cells) = pass_upload cells.
Proof.
  unfold bytes_moved, pass_transfers, pass_upload.
  rewrite filter_cons_True, filter_cons_False, !filter_cons_True, filter_nil
    by done.
  cbn [fmap list_fmap sumZ foldr t_bytes]. lia.
Qed.

Lemma pass_transfers_download cells :
  bytes_moved DeviceToHost (pass_transfers cells) = pass_download cells.
Proof.
  unfold bytes_moved, pass_transfers, pass_download.
  rewrite filter_cons_False, filter_cons_True, !filter_cons_False, filter_nil
    by done.
  cbn [fmap list_fmap sumZ foldr t_bytes]. lia.
Qed.

Lemma NUM_GROUPS_le N :
  fits_size_t N → NUM_GROUPS N * LOCAL_SZ ≤ N + 255.
Proof.
  unfold fits_size_t, NUM_GROUPS, LOCAL_SZ, u64. intros HN.
  rewrite Z.mod_small by lia.
  pose proof (Z.div_mod (Z.of_nat N + 256 - 1) 256 ltac:(lia)).
  pose proof (Z.mod_pos_bound (Z.of_nat N + 256 - 1) 256 ltac:(lia)).
  lia.
Qed.

(** From a state in which nothing has moved yet and for any pair of stages:
    the host-to-device counter ends [8 * N] bytes short of what was uploaded,
    the device-to-host counter is exact. *)
Lemma counter_shortfall `{Stages} U in_ out N s :
  (Z.of_nat N < 2 ^ 32)%Z →
  transfers s = [] →
  total_host_to_device s = 0%Z → total_device_to_host s = 0%Z →
  let r := run_opencl_radix U in_ out N s in
  bytes_moved HostToDevice (transfers (final r))
  = (total_host_to_device (final r) + 8 * Z.of_nat N)%Z ∧
  bytes_moved DeviceToHost (transfers (final r))
  = total_device_to_host (final r).
Proof.
  intros HN Hlog Hu Hd r. unfold r.
  destruct (run_counters U in_ out N s) as [-> ->].
  { rewrite Hu. by unfold is_u64. }
  { rewrite Hd. by unfold is_u64. }
  rewrite run_transfers, Hlog, Hu, Hd, app_nil_l.
  rewrite !bytes_moved_app, !bytes_moved_replicate.
  rewrite pass_transfers_upload, pass_transfers_download.
  pose proof (NUM_GROUPS_le N (small_fits N HN)) as Hle.
  assert (Z.of_nat (NUM_GROUPS N * RADIX) ≤ 2 ^ 32 + 255)%Z as Hcells
    by (rewrite RADIX_eq; unfold LOCAL_SZ in Hle; lia).
  unfold pass_upload, pass_download, SZ_UINT, SZ_ULONG in *.
  rewrite PASSES_eq, RADIX_eq in *.
  set (c := Z.of_nat (NUM_GROUPS N * 256)) in *.
  assert (0 ≤ c)%Z by (unfold c; lia).
  rewrite !(u64_small (c * 4)) by (unfold is_u64; lia).
  rewrite !(u64_small (Z.of_nat N * 8)) by (unfold is_u64; lia).
  rewrite !(u64_small (Z.of_nat 256 * 4)) by (unfold is_u64; lia).
  rewrite !u64_small by (unfold is_u64; lia).
  unfold bytes_moved.
  repeat first [rewrite filter_cons_True by done
               | rewrite filter_cons_False by done
               | rewrite filter_nil].
  cbn [fmap list_fmap sumZ foldr t_bytes]. lia.
Qed.

(** A write never touches the device-to-host counter, a read never touches
    the host-to-device counter. *)
Lemma ENQUEUE_WRITE_d2h buf sz data s :
  total_device_to_host (ENQUEUE_WRITE buf sz data s) = total_device_to_host s.
Proof. done. Qed.

Lemma ENQUEUE_READ_h2d buf sz host s :
  total_host_to_device (ENQUEUE_READ buf sz host s).1 = total_host_to_device s.
Proof. done. Qed.

(** C5.  On the input [5, 3, 3, 1] the call moves 24608 bytes to the device
    (the 32 bytes of the input when [buf_in] is created, then 3072 bytes in
    each of the 8 passes), and the host-to-device counter ends at 24576: the
    upload of the input is not counted.  The device-to-host counter is
    exact. *)
Theorem input_upload_is_not_counted :
  let r := @run_opencl_radix spec_stages no_garbage 0 1 4
             (fresh_state [5; 3; 3; 1]%Z []) in
  bytes_moved HostToDevice (transfers (final r)) = 24608%Z ∧
  total_host_to_device (final r) = 24576%Z ∧
  bytes_moved DeviceToHost (transfers (final r)) = 8224%Z ∧
  total_device_to_host (final r) = 8224%Z.
Proof. vm_compute. done. Qed.

(** C6.  On the empty input the call does not come to the verification.
    [out] is resized to no element, then line 82 asks for a buffer of
    [0 * sizeof(cl_ulong)] bytes, which OpenCL refuses, and the assertion of
    line 84 fails: the process is aborted before any pass, with nothing
    printed, nothing moved and both counters as they were. *)
Theorem empty_input_aborts `{Stages} U in_ out s :
  let s' := set_vector out [] s in
  run_opencl_radix_checked U in_ out 0 s = Aborted 84 s' ∧
  vectors s' out = [] ∧
  total_host_to_device s' = total_host_to_device s ∧
  total_device_to_host s' = total_device_to_host s ∧
  transfers s' = transfers s.
Proof.
  cbv zeta. split; [|split; [|done]].
  - unfold run_opencl_radix_checked. cbv zeta.
    rewrite decide_True by (vm_compute; discriminate).
    by rewrite resize_0.
  - cbn [set_vector vectors]. apply fn_lookup_insert.
Qed.

(** C7.  A final buffer that differs from the reference order makes the run
    print the mismatch diagnostic and exit with status 1; the run returns and
    prints the pass signal with the two transfer totals if and only if the
    final buffer equals the reference. *)
Theorem verification_outcome `{Stages} U in_ out N s :
  let r := run_opencl_radix U in_ out N s in
  let reference := cpu_reference (vectors s in_) in
  (vectors (final r) out ≠ reference →
     console r = [Cerr "Mismatch!\n"] ∧ term r = Exited 1) ∧
  (vectors (final r) out = reference ↔
     console r
     = [Cout "PASS\n";
        Cout "Total H→D bytes: "; CoutNum (total_host_to_device (final r));
        Cout "\n";
        Cout "Total D→H bytes: "; CoutNum (total_device_to_host (final r));
        Cout "\n"] ∧
     term r = Returned).
Proof.
  intros r reference.
  pose proof (run_report U in_ out N s) as Hrep.
  rewrite <- run_final in Hrep. fold r reference in Hrep.
  destruct (decide (vectors (final r) out = reference)) as [Heq|Hne].
  - rewrite verify_report_pass in Hrep by done.
    injection Hrep as Hc Ht. split; [done|]. by split.
  - rewrite verify_report_mismatch in Hrep by done.
    injection Hrep as Hc Ht. split; [done|].
    split; [done|]. intros [_ Hret]. congruence.
Qed.

(** C9, as stated, fails: when the caller passes the same vector as [in] and
    as [out], the call returns with that vector sorted. *)
Lemma aliased_input_is_overwritten :
  let s := fresh_state [2; 1]%Z [] in
  let r := @run_opencl_radix spec_stages no_garbage 0 0 2 s in
  term r = Returned ∧ vectors (final r) 0 ≠ vectors s 0.
Proof. vm_compute. split; [done | discriminate]. Qed.

(** C9, amended.  When [in] and [out] are different vectors, the call leaves
    [in] as it was; of the caller's vectors only [out] changes, and it ends
    with [N] elements.  (The two counters are the other part of the state the
    call modifies.) *)
Theorem input_is_preserved `{Stages} U in_ out N s :
  in_ ≠ out →
  let r := run_opencl_radix U in_ out N s in
  vectors (final r) in_ = vectors s in_ ∧
  (∀ v, v ≠ out → vectors (final r) v = vectors s v) ∧
  length (vectors (final r) out) = N.
Proof.
  intros Hne r. split; [|split].
  - by apply run_other.
  - intros v Hv. by apply run_other.
  - apply length_run_out.
Qed.

(** C10.  Both stages are launched with the first four bytes of [N], that
    is with [N] modulo 2^32; the histogram counts, the bucket totals, [pg]
    and [go] are 32-bit quantities computed modulo 2^32; the count the stages
    work with is [N] exactly when [N < 2^32].  Under that precondition every
    placement index is exact: in every pass the key at index [i] is placed at
    (number of keys with a smaller digit) + (number of keys before [i] with
    the same digit), and it is found there after the pass.  Without it the
    stages count and place the first [N mod 2^32] keys only, fewer than [N];
    at [N = 2^32] the scatter stage places no key at all. *)
Theorem counts_are_32_bit :
  (∀ (S : Stages) N shift s,
     @launch_histogram S N shift s
     = set_dev buf_gh
         (build_group_histogram (dev s (buf_in s)) (dev s buf_gh)
            (Z.of_nat N mod 2 ^ 32)%Z shift) s ∧
     @launch_scatter S N shift s
     = set_dev (buf_out s)
         (scatter_stable (dev s (buf_in s)) (dev s (buf_out s))
            (dev s buf_pg) (dev s buf_go) (Z.of_nat N mod 2 ^ 32)%Z shift) s) ∧
  (∀ N, kernel_arg_u32 N = (Z.of_nat N mod 2 ^ 32)%Z) ∧
  (∀ src hist n shift, Forall is_u32 (spec_histogram src hist n shift)) ∧
  (∀ hist NG tot pre off g d,
     RADIX ≤ length tot → RADIX ≤ length pre → NG * RADIX ≤ length off →
     g < NG → d < RADIX →
     let bt := compute_bt hist NG tot in
     let pg := compute_pg bt pre in
     let go := compute_go hist NG off in
     elt bt d = (sumZ (column hist d NG) mod 2 ^ 32)%Z ∧
     elt pg 0 = 0%Z ∧
     (1 ≤ d → elt pg d = ((elt pg (d - 1) + elt bt (d - 1)) mod 2 ^ 32)%Z) ∧
     elt go (g * RADIX + d) = (sumZ (column hist d g) mod 2 ^ 32)%Z) ∧
  (∀ N, (Z.of_nat N < 2 ^ 32)%Z ↔ kernel_arg_u32 N = Z.of_nat N) ∧
  (∀ U in_ out N s p i key,
     valid_input in_ N s → p < PASSES →
     let sp := @loop_state spec_stages U in_ out N s p in
     let sp' := @loop_state spec_stages U in_ out N s (S p) in
     dev sp (buf_in sp) !! i = Some key →
     @placed spec_stages U in_ out N s p i
     = slot (digit (shift_of p)) (dev sp (buf_in sp)) i key ∧
     dev sp' (buf_in sp') !! @placed spec_stages U in_ out N s p i = Some key) ∧
  (∀ N shift s,
     (2 ^ 32 ≤ Z.of_nat N)%Z →
     let n := Z.to_nat (Z.of_nat N mod 2 ^ 32) in
     n < N ∧
     dev (@launch_histogram spec_stages N shift s) buf_gh
     = spec_histogram (take n (dev s (buf_in s))) (dev s buf_gh)
         (Z.of_nat n) shift ∧
     dev (@launch_scatter spec_stages N shift s) (buf_out s)
     = spec_scatter (take n (dev s (buf_in s))) (dev s (buf_out s))
         (dev s buf_pg) (dev s buf_go) (Z.of_nat n) shift) ∧
  (∀ shift s,
     dev (@launch_scatter spec_stages (Z.to_nat (2 ^ 32)) shift s) (buf_out s)
     = dev s (buf_out s)).
Proof.
  split_and!.
  - intros S N shift s. unfold launch_histogram, launch_scatter.
    by rewrite kernel_arg_u32_spec.
  - apply kernel_arg_u32_spec.
  - intros src hist n shift. unfold spec_histogram.
    apply Forall_forall. intros x Hx.
    apply list_elem_of_lookup in Hx as [i Hi].
    rewrite list_lookup_imap in Hi.
    destruct (hist !! i); simplify_eq/=. apply u32_range.
  - intros hist NG tot pre off g d Ht Hp Ho Hg Hd. cbv zeta.
    destruct (compute_bt_spec hist NG tot Ht) as [_ Hbt].
    destruct (compute_pg_spec (compute_bt hist NG tot) pre Hp) as (_ & H0 & HS).
    destruct (compute_go_spec hist NG off Ho) as [_ Hgo].
    split; [|split; [|split]].
    + rewrite Hbt by done. apply bucket_sum_spec.
    + exact H0.
    + intros H1. rewrite HS by lia. reflexivity.
    + rewrite Hgo by done. reflexivity.
  - intros N. rewrite kernel_arg_u32_spec. unfold u32. split.
    + intros HN. apply Z.mod_small. lia.
    + intros Heq.
      pose proof (Z.mod_pos_bound (Z.of_nat N) (2 ^ 32) ltac:(lia)). lia.
  - intros U in_ out N s p i key Hvalid Hp. cbv zeta. intros Hi. split.
    + exact (placed_slot U in_ out N s Hvalid p i key Hi).
    + exact (placed_lookup U in_ out N s Hvalid p i key Hi).
  - intros N shift s HN. cbv zeta.
    pose proof (Z.mod_pos_bound (Z.of_nat N) (2 ^ 32) ltac:(lia)) as Hmod.
    split; [lia|].
    unfold launch_histogram, launch_scatter, set_dev. cbn [dev].
    rewrite !fn_lookup_insert, kernel_arg_u32_spec. unfold u32.
    cbn [build_group_histogram scatter_stable spec_stages].
    unfold spec_histogram, spec_scatter. cbv zeta.
    by rewrite !Nat2Z.id, !take_take, !Nat.min_id.
  - intros shift s.
    unfold launch_scatter, set_dev. cbn [dev].
    rewrite fn_lookup_insert, kernel_arg_u32_wraps.
    cbn [scatter_stable spec_stages]. unfold spec_scatter. cbv zeta.
    change (Z.to_nat 0) with 0. reflexivity.
Qed.

(** ** The theorems at work on the input [5, 3, 3, 1] *)

Lemma sample_valid : valid_input 0 4 sample.
Proof.
  split.
  - repeat constructor; unfold is_u64; lia.
  - reflexivity.
  - vm_compute. reflexivity.
Defined.

Lemma run_opencl_radix_sorts_witness :
  let r := @run_opencl_radix spec_stages no_garbage 0 1 4 sample in
  vectors (final r) 1 ≡ₚ vectors sample 0 ∧
  StronglySorted Z.le (vectors (final r) 1) ∧
  vectors (final r) 1 = cpu_reference (vectors sample 0) ∧
  term r = Returned.
Proof. apply (run_opencl_radix_sorts no_garbage 0 1 4 sample sample_valid). Defined.

Lemma scatter_is_stable_witness :
  let r := @run_opencl_radix spec_stages no_garbage 0 1 4 sample in
  vectors (final r) 1 !! @tracked spec_stages no_garbage 0 1 4 sample PASSES 1
  = Some 3%Z ∧
  @tracked spec_stages no_garbage 0 1 4 sample PASSES 1
  < @tracked spec_stages no_garbage 0 1 4 sample PASSES 2.
Proof.
  destruct (scatter_is_stable no_garbage 0 1 4 sample sample_valid)
    as (_ & Hlookup & Hstable).
  split.
  - apply Hlookup. reflexivity.
  - apply (Hstable 1 2 3%Z); [lia | reflexivity | reflexivity].
Defined.

Lemma bucket_totals_and_global_prefix_witness :
  let sp := @loop_state spec_stages no_garbage 0 1 4 sample 1 in
  (∀ d, d < RADIX →
     elt (bt sp) d = sumZ (column (gh sp) d (NUM_GROUPS 4))) ∧
  sumZ (elt (bt sp) <$> seq 0 RADIX) = Z.of_nat 4 ∧
  elt (pg sp) 0 = 0%Z ∧
  (∀ d, 1 ≤ d < RADIX →
     elt (pg sp) d = (elt (pg sp) (d - 1) + elt (bt sp) (d - 1))%Z).
Proof.
  apply (bucket_totals_and_global_prefix no_garbage 0 1 4 sample 0 sample_valid).
  vm_compute. lia.
Defined.

Lemma group_offsets_are_running_sums_witness :
  let sp := @loop_state spec_stages no_garbage 0 1 300 two_groups 1 in
  (elt (go sp) (1 * RADIX + 3) = sumZ (column (gh sp) 3 1) ∧
   elt (go sp) (0 * RADIX + 3) = 0%Z ∧
   elt (go sp) (1 * RADIX + 3)
   = (elt (go sp) (0 * RADIX + 3) + elt (gh sp) (0 * RADIX + 3))%Z) ∧
  elt (gh sp) (0 * RADIX + 3) = 256%Z ∧
  elt (go sp) (1 * RADIX + 3) = 256%Z.
Proof.
  assert (1 < NUM_GROUPS 300) as Hgroups by (vm_compute; lia).
  assert (3 < RADIX) as Hdigit by (vm_compute; lia).
  assert (0 < PASSES) as Hpass by (vm_compute; lia).
  destruct (group_offsets_are_running_sums no_garbage 0 1 300 two_groups 0 1 3
              Hpass Hgroups Hdigit) as (Hsum & Hzero & _).
  destruct (group_offsets_are_running_sums no_garbage 0 1 300 two_groups 0 0 3
              Hpass ltac:(lia) Hdigit) as (_ & _ & Hstep).
  pose proof (Hstep Hgroups) as Hnext.
  assert (elt (gh (@loop_state spec_stages no_garbage 0 1 300 two_groups 1))
              (0 * RADIX + 3) = 256%Z) as Hcount by (vm_compute; reflexivity).
  cbv zeta. split; [exact (conj Hsum (conj Hzero Hnext))|].
  split; [exact Hcount|].
  rewrite Hnext, Hzero, Hcount. reflexivity.
Defined.

Lemma verification_outcome_witness :
  let r := @run_opencl_radix spec_stages no_garbage 0 1 1
             (fresh_state [2; 1]%Z []) in
  console r = [Cerr "Mismatch!\n"] ∧ term r = Exited 1.
Proof.
  apply (proj1 (@verification_outcome spec_stages no_garbage 0 1 1
                  (fresh_state [2; 1]%Z []))).
  vm_compute. discriminate.
Defined.

Lemma double_buffering_witness :
  let at_ k := @loop_state spec_stages no_garbage 0 1 4 sample k in
  (buf_in (at_ 7) ≠ buf_out (at_ 7) ∧
   buf_in (at_ 8) = buf_out (at_ 7) ∧
   buf_out (at_ 8) = buf_in (at_ 7)) ∧
  dev (at_ PASSES) (buf_in (at_ PASSES)) = cpu_reference (vectors sample 0).
Proof.
  destruct (double_buffering no_garbage 0 1 4 sample) as [Hroles [_ Hsorted]].
  split.
  - apply (Hroles spec_stages 7). vm_compute. lia.
  - apply Hsorted, sample_valid.
Defined.

Lemma input_is_preserved_witness :
  let r := @run_opencl_radix spec_stages no_garbage 0 1 4 sample in
  vectors (final r) 0 = vectors sample 0 ∧
  (∀ v, v ≠ 1 → vectors (final r) v = vectors sample v) ∧
  length (vectors (final r) 1) = 4.
Proof.
  apply (@input_is_preserved spec_stages no_garbage 0 1 4 sample). lia.
Defined.

Lemma counts_are_32_bit_witness :
  let hist := replicate 512 (2 ^ 31)%Z in
  let bt := compute_bt hist 2 (replicate 256 0%Z) in
  let pg := compute_pg bt (replicate 256 0%Z) in
  let go := compute_go hist 2 (replicate 512 0%Z) in
  let sp := @loop_state spec_stages no_garbage 0 1 4 sample 0 in
  let sp' := @loop_state spec_stages no_garbage 0 1 4 sample 1 in
  let big := Z.to_nat (2 ^ 32) in
  (elt bt 7 = (sumZ (column hist 7 2) mod 2 ^ 32)%Z ∧
   elt pg 0 = 0%Z ∧
   (1 ≤ 7 → elt pg 7 = ((elt pg (7 - 1) + elt bt (7 - 1)) mod 2 ^ 32)%Z) ∧
   elt go (1 * RADIX + 7) = (sumZ (column hist 7 1) mod 2 ^ 32)%Z) ∧
  kernel_arg_u32 5 = Z.of_nat 5 ∧
  (@placed spec_stages no_garbage 0 1 4 sample 0 1
   = slot (digit (shift_of 0)) (dev sp (buf_in sp)) 1 3%Z ∧
   dev sp' (buf_in sp') !! @placed spec_stages no_garbage 0 1 4 sample 0 1
   = Some 3%Z) ∧
  (Z.to_nat (Z.of_nat big mod 2 ^ 32) < big ∧
   dev (@launch_histogram spec_stages big 0 sample) buf_gh
   = spec_histogram
       (take (Z.to_nat (Z.of_nat big mod 2 ^ 32)) (dev sample (buf_in sample)))
       (dev sample buf_gh)
       (Z.of_nat (Z.to_nat (Z.of_nat big mod 2 ^ 32))) 0 ∧
   dev (@launch_scatter spec_stages big 0 sample) (buf_out sample)
   = spec_scatter
       (take (Z.to_nat (Z.of_nat big mod 2 ^ 32)) (dev sample (buf_in sample)))
       (dev sample (buf_out sample)) (dev sample buf_pg) (dev sample buf_go)
       (Z.of_nat (Z.to_nat (Z.of_nat big mod 2 ^ 32))) 0).
Proof.
  destruct counts_are_32_bit
    as (_ & _ & _ & Harrays & Hcount & Hexact & Hwrap & _).
  cbv zeta. split; [|split; [|split]].
  - apply (Harrays (replicate 512 (2 ^ 31)%Z) 2 (replicate 256 0%Z)
             (replicate 256 0%Z) (replicate 512 0%Z) 1 7);
      vm_compute; lia.
  - apply Hcount. vm_compute. reflexivity.
  - apply (Hexact no_garbage 0 1 4 sample 0 1 3%Z sample_valid);
      [vm_compute; lia | vm_compute; reflexivity].
  - apply (Hwrap (Z.to_nat (2 ^ 32)) 0%Z sample). lia.
Defined.

(** ** The digits of [radix_sort_single_lsb] *)

Lemma BUCKETS_eq : Cpu.BUCKETS = 2048.
Proof. reflexivity. Qed.

Lemma cpu_PASSES_eq : Cpu.PASSES = 6.
Proof. reflexivity. Qed.

Lemma bucket_of_spec shift key :
  (0 ≤ shift)%Z →
  Cpu.bucket_of shift key = Z.to_nat ((key / 2 ^ shift) mod 2048).
Proof.
  intros Hs. unfold Cpu.bucket_of.
  change (Z.of_nat Cpu.BUCKETS - 1)%Z with (Z.ones 11).
  rewrite Z.land_ones by lia. rewrite Z.shiftr_div_pow2 by done.
  change (2 ^ 11)%Z with 2048%Z.
  rewrite u32_small; [done|].
  pose proof (Z.mod_pos_bound (key / 2 ^ shift) 2048 ltac:(lia)).
  unfold is_u32. lia.
Qed.

Lemma bucket_of_lt shift key : Cpu.bucket_of shift key < Cpu.BUCKETS.
Proof.
  unfold Cpu.bucket_of. change (Z.of_nat Cpu.BUCKETS - 1)%Z with (Z.ones 11).
  rewrite Z.land_ones by lia. rewrite BUCKETS_eq.
  pose proof (Z.mod_pos_bound (Z.shiftr key shift) (2 ^ 11) ltac:(lia)).
  rewrite u32_small; [lia|]. unfold is_u32. lia.
Qed.

Lemma bucket_of_split shift key :
  (0 ≤ shift)%Z →
  (key mod 2 ^ (shift + 11)
   = Z.of_nat (Cpu.bucket_of shift key) * 2 ^ shift + key mod 2 ^ shift)%Z.
Proof.
  intros Hs. rewrite bucket_of_spec by done.
  rewrite Z2Nat.id by (apply Z.mod_pos_bound; lia).
  rewrite Z.pow_add_r by lia.
  rewrite Z.rem_mul_r by lia. change (2 ^ 11)%Z with 2048%Z. lia.
Qed.

Lemma cpu_shift_of_eq p : p < Cpu.PASSES → Cpu.shift_of p = (11 * Z.of_nat p)%Z.
Proof.
  rewrite cpu_PASSES_eq. intros Hp. unfold Cpu.shift_of, Cpu.BITS.
  rewrite u32_small; [lia|]. unfold is_u32. lia.
Qed.

(** ** Radix sort on lists, in 11-bit digits *)

Lemma cpu_lsd_S k l : cpu_lsd (S k) l = cpu_lsd_pass k (cpu_lsd k l).
Proof. unfold cpu_lsd. by rewrite seq_S, foldl_snoc. Qed.

Lemma cpu_lsd_pass_Permutation p l : cpu_lsd_pass p l ≡ₚ l.
Proof.
  apply buckets_Permutation, Forall_forall. intros. apply bucket_of_lt.
Qed.

Lemma length_cpu_lsd_pass p l : length (cpu_lsd_pass p l) = length l.
Proof. by rewrite cpu_lsd_pass_Permutation. Qed.

Lemma cpu_lsd_Permutation k l : cpu_lsd k l ≡ₚ l.
Proof.
  induction k as [|k IH]; [done|].
  by rewrite cpu_lsd_S, cpu_lsd_pass_Permutation.
Qed.

Lemma length_cpu_lsd k l : length (cpu_lsd k l) = length l.
Proof. by rewrite cpu_lsd_Permutation. Qed.

Lemma cpu_lsd_sorted k l :
  k ≤ Cpu.PASSES →
  StronglySorted
    (λ x y, (x mod 2 ^ (11 * Z.of_nat k) ≤ y mod 2 ^ (11 * Z.of_nat k))%Z)
    (cpu_lsd k l).
Proof.
  induction k as [|k IH]; intros Hk.
  - apply StronglySorted_trivial. intros x y.
    change (2 ^ (11 * Z.of_nat 0))%Z with 1%Z. by rewrite !Z.mod_1_r.
  - rewrite cpu_lsd_S. unfold cpu_lsd_pass.
    rewrite cpu_shift_of_eq by lia.
    eapply (buckets_sorted _ (λ x, x mod 2 ^ (11 * Z.of_nat k))%Z
              (λ x, x mod 2 ^ (11 * Z.of_nat (S k)))%Z (2 ^ (11 * Z.of_nat k))%Z).
    + intros x. replace (11 * Z.of_nat (S k))%Z with (11 * Z.of_nat k + 11)%Z by lia.
      apply bucket_of_split. lia.
    + intros x. apply Z.mod_pos_bound. lia.
    + apply IH. lia.
Qed.

(** Six passes of eleven bits span 66 bits, the 64 of a key among them. *)
Lemma cpu_lsd_sorts l :
  Forall is_u64 l → cpu_lsd Cpu.PASSES l = merge_sort Z.le l.
Proof.
  intros Hl.
  apply (StronglySorted_unique Z.le).
  - apply StronglySorted_impl_elem
      with (R := λ x y, (x mod 2 ^ (11 * Z.of_nat Cpu.PASSES)
                         ≤ y mod 2 ^ (11 * Z.of_nat Cpu.PASSES))%Z).
    + intros x y Hx Hy.
      rewrite cpu_lsd_Permutation in Hx, Hy.
      rewrite Forall_forall in Hl.
      pose proof (Hl x Hx) as Hx'. pose proof (Hl y Hy) as Hy'.
      unfold is_u64 in *.
      change (2 ^ (11 * Z.of_nat Cpu.PASSES))%Z with (2 ^ 66)%Z.
      rewrite !Z.mod_small; [done|lia|lia].
    + by apply cpu_lsd_sorted.
  - apply StronglySorted_merge_sort; apply _.
  - by rewrite cpu_lsd_Permutation, merge_sort_Permutation.
Qed.

(** ** The three loops of a pass *)

Lemma length_filter_take_le {A} (P : A → Prop) `{!∀ x, Decision (P x)} i (l : list A) :
  length (filter P (take i l)) ≤ i.
Proof.
  etransitivity; [apply length_filter|]. rewrite length_take. lia.
Qed.

Lemma filter_take_S {A} (P : A → Prop) `{!∀ x, Decision (P x)} i (l : list A) x :
  l !! i = Some x →
  length (filter P (take (S i) l))
  = length (filter P (take i l)) + (if decide (P x) then 1 else 0).
Proof.
  intros Hx. rewrite (take_S_r _ _ _ Hx), filter_app, length_app.
  f_equal. rewrite filter_cons, filter_nil. by destruct (decide (P x)).
Qed.

Lemma mem_insert_eq (m : Cpu.memory) a v : (<[a := v]> m) a = v.
Proof. apply fn_lookup_insert. Qed.

Lemma mem_insert_ne (m : Cpu.memory) a b v : a ≠ b → (<[a := v]> m) b = m b.
Proof. apply fn_lookup_insert_ne. Qed.

Section count_loop.
Variables (keys : list Z) (N : nat) (shift : Z) (hist : list Z).
Hypothesis hist_size : length hist = Cpu.BUCKETS.
Hypothesis keys_size : N ≤ length keys.
Hypothesis count_fits : (Z.of_nat N < 2 ^ 32)%Z.

Lemma count_keys_spec :
  length (Cpu.count_keys keys N shift hist) = Cpu.BUCKETS
  ∧ ∀ b, b < Cpu.BUCKETS →
      elt (Cpu.count_keys keys N shift hist) b
      = Z.of_nat (length (filter (λ x, Cpu.bucket_of shift x = b) (take N keys))).
Proof.
  unfold Cpu.count_keys.
  apply (foldl_seq_invariant
    (λ i h, length h = Cpu.BUCKETS
            ∧ ∀ b, b < Cpu.BUCKETS →
                elt h b = Z.of_nat (length (filter (λ x, Cpu.bucket_of shift x = b)
                                              (take i keys)))) _ _ 0 N).
  - split; [by rewrite length_fmap|].
    intros b Hb. rewrite take_0, filter_nil. simpl.
    unfold elt. rewrite list_lookup_fmap.
    by destruct (hist !! b).
  - intros i h Hi [Hlen Hh].
    destruct (lookup_lt_is_Some_2 keys i ltac:(lia)) as [x Hx].
    rewrite (elt_lookup _ _ _ Hx).
    pose proof (bucket_of_lt shift x) as Hb0.
    split; [by rewrite length_insert|].
    intros b Hb.
    rewrite (filter_take_S _ _ _ _ Hx). cbv beta.
    destruct (decide (Cpu.bucket_of shift x = b)) as [<-|Hne].
    + rewrite elt_insert_eq by lia. rewrite Hh by done.
      pose proof (length_filter_take_le
                    (λ y, Cpu.bucket_of shift y = Cpu.bucket_of shift x) i keys).
      rewrite u32_small; [lia|]. unfold is_u32. lia.
    + rewrite elt_insert_ne by done. rewrite Hh by done. lia.
Qed.
End count_loop.

Section offsets_loop.
Variables (f : Z → nat) (l : list Z) (hist offsets : list Z).
Hypothesis offsets_size : length offsets = Cpu.BUCKETS + 1.
Hypothesis keys_fit : (Z.of_nat (length l) < 2 ^ 64)%Z.
Hypothesis hist_exact : ∀ b, b < Cpu.BUCKETS →
  elt hist b = Z.of_nat (length (filter (λ x, f x = b) l)).

Lemma prefix_offsets_spec :
  length (Cpu.prefix_offsets hist offsets) = Cpu.BUCKETS + 1
  ∧ ∀ b, b ≤ Cpu.BUCKETS →
      elt (Cpu.prefix_offsets hist offsets) b
      = Z.of_nat (length (filter (λ x, f x < b) l)).
Proof.
  unfold Cpu.prefix_offsets.
  apply (foldl_seq_invariant
    (λ j o, length o = Cpu.BUCKETS + 1
            ∧ ∀ b, b ≤ j →
                elt o b = Z.of_nat (length (filter (λ x, f x < b) l)))
    _ _ 0 Cpu.BUCKETS).
  - split; [by rewrite length_insert|].
    intros b Hb. replace b with 0 by lia.
    rewrite elt_insert_eq by lia.
    by rewrite <- (length_buckets f 0 l).
  - intros j o Hj [Hlen Ho].
    split; [by rewrite length_insert|].
    intros b Hb.
    destruct (decide (b = j + 1)) as [->|Hne].
    + rewrite elt_insert_eq by lia.
      rewrite Ho, hist_exact by lia.
      replace (j + 1) with (S j) by lia.
      rewrite (filter_below_S f j l), length_app.
      pose proof (length_filter (λ x, f x < j) l).
      pose proof (length_filter (λ x, f x = j) l).
      pose proof (length_below_le f j (S j) l ltac:(lia)).
      pose proof (length_filter (λ x, f x < S j) l).
      rewrite u64_small; [lia|]. unfold is_u64. lia.
    + rewrite elt_insert_ne by lia. apply Ho. lia.
Qed.
End offsets_loop.

Section scatter_loop.
Variables (src dst : Cpu.array_ref) (N : nat) (shift : Z)
          (m : Cpu.memory) (offsets : list Z).
Local Abbreviation f := (Cpu.bucket_of shift).
Local Abbreviation l := (take N (m src)).
Hypothesis distinct : src ≠ dst.
Hypothesis src_size : N ≤ length (m src).
Hypothesis keys_fit : (Z.of_nat N < 2 ^ 32)%Z.
Hypothesis offsets_size : length offsets = Cpu.BUCKETS + 1.
Hypothesis offsets_start : ∀ b, b ≤ Cpu.BUCKETS →
  elt offsets b = Z.of_nat (length (filter (λ x, f x < b) l)).

Lemma scatter_spec :
  let r := Cpu.scatter src dst N shift m offsets in
  r.1 dst = foldl (place f l) (m dst) (seq 0 N)
  ∧ (∀ a, a ≠ dst → r.1 a = m a)
  ∧ length r.2 = Cpu.BUCKETS + 1
  ∧ ∀ b, b < Cpu.BUCKETS →
      elt r.2 b = Z.of_nat (length (filter (λ x, f x < S b) l)).
Proof.
  assert (Hl : length l = N) by (rewrite length_take; lia).
  assert (Hinv :
    let r := Cpu.scatter src dst N shift m offsets in
    r.1 dst = foldl (place f l) (m dst) (seq 0 N)
    ∧ (∀ a, a ≠ dst → r.1 a = m a)
    ∧ length r.2 = Cpu.BUCKETS + 1
    ∧ ∀ b, b < Cpu.BUCKETS →
        elt r.2 b = Z.of_nat (length (filter (λ x, f x < b) l)
                              + length (filter (λ x, f x = b) (take N l)))).
  { unfold Cpu.scatter.
    apply (foldl_seq_invariant
      (λ i (st : Cpu.memory * list Z),
         st.1 dst = foldl (place f l) (m dst) (seq 0 i)
         ∧ (∀ a, a ≠ dst → st.1 a = m a)
         ∧ length st.2 = Cpu.BUCKETS + 1
         ∧ ∀ b, b < Cpu.BUCKETS →
             elt st.2 b = Z.of_nat (length (filter (λ x, f x < b) l)
                                   + length (filter (λ x, f x = b) (take i l))))
      _ _ 0 N).
    - cbn [fst snd seq foldl]. split_and!; [done|done|done|].
      intros b Hb. rewrite take_0, filter_nil. cbn [length].
      rewrite offsets_start by lia. f_equal. lia.
    - intros i [mi oi] Hi (Hdst & Hoth & Hlen & Hoff).
      cbn [fst snd] in *.
      destruct (lookup_lt_is_Some_2 l i ltac:(lia)) as [x Hx].
      assert (Hsrc : elt (mi src) i = x).
      { rewrite Hoth by done. apply elt_lookup.
        rewrite lookup_take_lt in Hx by lia. done. }
      unfold Cpu.scatter_step. cbv beta iota zeta. rewrite Hsrc.
      pose proof (bucket_of_lt shift x) as Hb0.
      cbn [fst snd].
      assert (Hk : Z.to_nat (elt oi (f x)) = slot f l i x).
      { rewrite Hoff by done. unfold slot. lia. }
      split_and!.
      + rewrite mem_insert_eq, Hk, Hdst.
        rewrite seq_S, foldl_snoc. cbn [Nat.add].
        by rewrite (place_Some f l _ i x Hx).
      + intros a Ha. rewrite mem_insert_ne by done. by apply Hoth.
      + by rewrite length_insert.
      + intros b Hb.
        rewrite (filter_take_S _ _ _ _ Hx). cbv beta.
        destruct (decide (f x = b)) as [<-|Hne].
        * rewrite elt_insert_eq by lia. rewrite Hoff by done.
          pose proof (length_filter (λ y, f y < f x) l).
          pose proof (length_filter_take_le (λ y, f y = f x) i l).
          rewrite u64_small; [lia|]. unfold is_u64. lia.
        * rewrite elt_insert_ne by done. rewrite Hoff by done. lia. }
  destruct Hinv as (H1 & H2 & H3 & H4). split_and!; [done|done|done|].
  intros b Hb. rewrite H4 by done.
  rewrite <- Hl at 2. rewrite firstn_all.
  by rewrite (filter_below_S f b l), length_app.
Qed.
End scatter_loop.

(** ** One pass of [radix_sort_single_lsb] *)

Section one_pass.
Variables (N : nat) (f : Cpu.frame) (pass : nat).
Local Abbreviation keys := (take N (Cpu.mem f (Cpu.src f))).
Local Abbreviation digit_of := (Cpu.bucket_of (Cpu.shift_of pass)).
Hypothesis distinct : Cpu.src f ≠ Cpu.dst f.
Hypothesis src_size : N ≤ length (Cpu.mem f (Cpu.src f)).
Hypothesis dst_size : N ≤ length (Cpu.mem f (Cpu.dst f)).
Hypothesis count_fits : (Z.of_nat N < 2 ^ 32)%Z.
Hypothesis hist_size : length (Cpu.hist f) = Cpu.BUCKETS.
Hypothesis offsets_size : length (Cpu.offsets f) = Cpu.BUCKETS + 1.

Lemma length_pass_keys : length keys = N.
Proof. rewrite length_take. lia. Qed.

Lemma pass_hist :
  length (Cpu.hist (Cpu.pass_body N f pass)) = Cpu.BUCKETS
  ∧ ∀ b, b < Cpu.BUCKETS →
      elt (Cpu.hist (Cpu.pass_body N f pass)) b
      = Z.of_nat (length (filter (λ x, digit_of x = b) keys)).
Proof.
  unfold Cpu.pass_body. cbv zeta.
  destruct (Cpu.scatter _ _ _ _ _ _) as [m' o']. cbn [Cpu.hist].
  by apply count_keys_spec.
Qed.

Lemma pass_body_spec :
  let f' := Cpu.pass_body N f pass in
  Cpu.src f' = Cpu.dst f
  ∧ Cpu.dst f' = Cpu.src f
  ∧ Cpu.mem f' (Cpu.dst f) = cpu_lsd_pass pass keys ++ drop N (Cpu.mem f (Cpu.dst f))
  ∧ (∀ a, a ≠ Cpu.dst f → Cpu.mem f' a = Cpu.mem f a)
  ∧ length (Cpu.offsets f') = Cpu.BUCKETS + 1
  ∧ ∀ b, b < Cpu.BUCKETS →
      elt (Cpu.offsets f') b
      = Z.of_nat (length (filter (λ x, digit_of x < S b) keys)).
Proof.
  pose proof length_pass_keys as Hl.
  destruct (count_keys_spec (Cpu.mem f (Cpu.src f)) N (Cpu.shift_of pass)
              (Cpu.hist f) hist_size src_size count_fits) as [Hh1 Hh2].
  destruct (prefix_offsets_spec digit_of keys
              (Cpu.count_keys (Cpu.mem f (Cpu.src f)) N (Cpu.shift_of pass) (Cpu.hist f))
              (Cpu.offsets f) offsets_size ltac:(lia) Hh2) as [Ho1 Ho2].
  pose proof (scatter_spec (Cpu.src f) (Cpu.dst f) N (Cpu.shift_of pass)
                (Cpu.mem f) _ distinct src_size count_fits Ho1 Ho2) as Hs.
  cbv zeta in Hs. unfold Cpu.pass_body. cbv zeta.
  destruct (Cpu.scatter _ _ _ _ _ _) as [m' o'].
  cbn [fst snd] in Hs. destruct Hs as (Hd & Hoth & Hlen & Hoff).
  cbn [Cpu.src Cpu.dst Cpu.mem Cpu.offsets].
  split_and!; [reflexivity | reflexivity | | exact Hoth | exact Hlen | exact Hoff].
  rewrite Hd.
  pose proof (place_all digit_of keys (Cpu.mem f (Cpu.dst f)) Cpu.BUCKETS) as Hp.
  rewrite Hl in Hp. apply Hp; [|exact dst_size].
  apply Forall_forall. intros. apply bucket_of_lt.
Qed.
End one_pass.

(** ** [std::copy] *)

Lemma copy_keys_spec from to N (m : Cpu.memory) :
  N ≤ length (m from) → N ≤ length (m to) →
  Cpu.copy_keys from to N m to = take N (m from) ++ drop N (m to)
  ∧ ∀ a, a ≠ to → Cpu.copy_keys from to N m a = m a.
Proof.
  intros Hf Ht. unfold Cpu.copy_keys.
  apply (foldl_seq_invariant
    (λ i (mi : Cpu.memory),
       mi to = take i (m from) ++ drop i (m to)
       ∧ ∀ a, a ≠ to → mi a = m a) _ _ 0 N).
  - by rewrite take_0, drop_0.
  - intros i mi Hi [Hto Hoth].
    destruct (lookup_lt_is_Some_2 (m from) i ltac:(lia)) as [x Hx].
    assert (Hsrc : elt (mi from) i = x).
    { apply elt_lookup. destruct (decide (from = to)) as [->|Hne].
      - rewrite Hto. rewrite lookup_app_r by (rewrite length_take; lia).
        rewrite length_take, lookup_drop.
        replace (i + (i - i `min` length (m to))) with i by lia. done.
      - by rewrite Hoth. }
    rewrite Hsrc. split.
    + rewrite mem_insert_eq, Hto.
      rewrite insert_app_r_alt by (rewrite length_take; lia).
      rewrite length_take. replace (i - i `min` length (m from)) with 0 by lia.
      rewrite (take_S_r _ _ _ Hx), <- app_assoc. f_equal.
      destruct (lookup_lt_is_Some_2 (m to) i ltac:(lia)) as [y Hy].
      rewrite (drop_S _ _ _ Hy). done.
    + intros a Ha. rewrite mem_insert_ne by done. by apply Hoth.
Qed.

(** ** The loop of [radix_sort_single_lsb] *)

Lemma lsb_after_S in_ out N m k :
  lsb_after in_ out N m (S k) = Cpu.pass_body N (lsb_after in_ out N m k) k.
Proof. unfold lsb_after, Cpu.passes. by rewrite seq_S, foldl_snoc. Qed.

Lemma single_lsb_unfold in_ out N m :
  Cpu.radix_sort_single_lsb in_ out N m
  = Cpu.copy_back out N (lsb_after in_ out N m Cpu.PASSES).
Proof. unfold Cpu.radix_sort_single_lsb. unfold lsb_after. reflexivity. Qed.

Section lsb_loop.
Variables (in_ out : Cpu.array_ref) (N : nat) (m : Cpu.memory).
Hypothesis distinct : in_ ≠ out.
Hypothesis in_size : N ≤ length (m in_).
Hypothesis out_size : N ≤ length (m out).
Hypothesis count_fits : (Z.of_nat N < 2 ^ 32)%Z.

Lemma lsb_loop_spec k :
  let f := lsb_after in_ out N m k in
  Cpu.src f = (if Nat.even k then in_ else out)
  ∧ Cpu.dst f = (if Nat.even k then out else in_)
  ∧ take N (Cpu.mem f (Cpu.src f)) = cpu_lsd k (take N (m in_))
  ∧ length (Cpu.mem f (Cpu.dst f)) = length (m (Cpu.dst f))
  ∧ drop N (Cpu.mem f in_) = drop N (m in_)
  ∧ drop N (Cpu.mem f out) = drop N (m out)
  ∧ (∀ a, a ≠ in_ → a ≠ out → Cpu.mem f a = m a)
  ∧ length (Cpu.hist f) = Cpu.BUCKETS
  ∧ length (Cpu.offsets f) = Cpu.BUCKETS + 1.
Proof.
  cbv zeta. induction k as [|k IH].
  - unfold lsb_after, Cpu.passes. cbn [seq foldl Cpu.src Cpu.dst Cpu.mem Cpu.hist Cpu.offsets Nat.even].
    rewrite !length_replicate. done.
  - destruct IH as (Hs & Hd & Hk & Hdl & Hin & Hout & Hoth & Hh & Ho).
    rewrite lsb_after_S.
    set (f := lsb_after in_ out N m k) in *.
    assert (Hsd : Cpu.src f ≠ Cpu.dst f).
    { rewrite Hs, Hd. destruct (Nat.even k); done. }
    assert (Hsl : N ≤ length (Cpu.mem f (Cpu.src f))).
    { assert (length (take N (Cpu.mem f (Cpu.src f))) = N) as HN.
      { rewrite Hk, length_cpu_lsd, length_take. lia. }
      rewrite length_take in HN. lia. }
    assert (Hdl' : N ≤ length (Cpu.mem f (Cpu.dst f))).
    { rewrite Hdl, Hd. destruct (Nat.even k); done. }
    destruct (pass_body_spec N f k Hsd Hsl Hdl' count_fits Hh Ho)
      as (Hs' & Hd' & Hm' & Hoth' & Ho' & _).
    destruct (pass_hist N f k Hsl count_fits Hh) as [Hh' _].
    rewrite Hs', Hd'.
    assert (Htake : take N (Cpu.mem (Cpu.pass_body N f k) (Cpu.dst f))
                    = cpu_lsd (S k) (take N (m in_))).
    { rewrite Hm', cpu_lsd_S, <- Hk.
      apply take_app_length'.
      rewrite length_cpu_lsd_pass, length_take. lia. }
    assert (Hdrop : drop N (Cpu.mem (Cpu.pass_body N f k) (Cpu.dst f))
                    = drop N (Cpu.mem f (Cpu.dst f))).
    { rewrite Hm'. apply drop_app_length'.
      rewrite length_cpu_lsd_pass, length_take. lia. }
    rewrite Nat.even_succ, <- Nat.negb_even.
    split_and!; [| |exact Htake| | | | |exact Hh'|exact Ho'].
    + rewrite Hd. by destruct (Nat.even k).
    + rewrite Hs. by destruct (Nat.even k).
    + rewrite Hoth' by done.
      apply (f_equal length) in Hin, Hout. rewrite !length_drop in Hin, Hout.
      revert Hs Hsl. destruct (Nat.even k); intros -> Hsl; lia.
    + revert Hs Hd Hdrop Hoth'. destruct (Nat.even k); intros Hs Hd Hdrop Hoth'.
      * rewrite Hd in *. by rewrite Hoth'.
      * rewrite Hd in *. by rewrite Hdrop.
    + revert Hs Hd Hdrop Hoth'. destruct (Nat.even k); intros Hs Hd Hdrop Hoth'.
      * rewrite Hd in *. by rewrite Hdrop.
      * rewrite Hd in *. by rewrite Hoth'.
    + intros a Ha1 Ha2. rewrite Hoth'; [by apply Hoth|].
      rewrite Hd. by destruct (Nat.even k).
Qed.

Lemma lsb_finish_spec k :
  Nat.even k = true →
  let m' := Cpu.copy_back out N (lsb_after in_ out N m k) in
  m' in_ = cpu_lsd k (take N (m in_)) ++ drop N (m in_)
  ∧ m' out = cpu_lsd k (take N (m in_)) ++ drop N (m out)
  ∧ ∀ a, a ≠ in_ → a ≠ out → m' a = m a.
Proof.
  intros Hev. cbv zeta.
  destruct (lsb_loop_spec k)
    as (Hs & Hd & Hk & Hdl & Hin & Hout & Hoth & _).
  unfold Cpu.copy_back.
  generalize dependent (lsb_after in_ out N m k). intros f.
  rewrite Hev. intros Hs Hd. rewrite Hs, Hd. intros Hk Hdl Hin Hout Hoth.
  rewrite bool_decide_eq_true_2 by exact distinct.
  assert (Hinl : N ≤ length (Cpu.mem f in_)).
  { assert (length (take N (Cpu.mem f in_)) = N) as HN.
    { rewrite Hk, length_cpu_lsd, length_take. lia. }
    rewrite length_take in HN. lia. }
  assert (Houtl : N ≤ length (Cpu.mem f out)) by lia.
  destruct (copy_keys_spec in_ out N (Cpu.mem f) Hinl Houtl) as [Hc1 Hc2].
  split_and!.
  - rewrite Hc2 by exact distinct.
    rewrite <- (take_drop N (Cpu.mem f in_)), Hk, Hin. reflexivity.
  - rewrite Hc1, Hk, Hout. reflexivity.
  - intros a Ha1 Ha2. rewrite Hc2 by exact Ha2. exact (Hoth a Ha1 Ha2).
Qed.

Lemma single_lsb_run :
  let m' := Cpu.radix_sort_single_lsb in_ out N m in
  m' in_ = cpu_lsd Cpu.PASSES (take N (m in_)) ++ drop N (m in_)
  ∧ m' out = cpu_lsd Cpu.PASSES (take N (m in_)) ++ drop N (m out)
  ∧ ∀ a, a ≠ in_ → a ≠ out → m' a = m a.
Proof.
  cbv zeta. rewrite single_lsb_unfold.
  exact (lsb_finish_spec Cpu.PASSES eq_refl).
Qed.
End lsb_loop.

(** With no key to sort no pass writes to memory. *)
Lemma lsb_after_empty in_ out m k :
  Cpu.mem (lsb_after in_ out 0 m k) = m.
Proof.
  induction k as [|k IH]; [done|].
  rewrite lsb_after_S. unfold Cpu.pass_body. cbv zeta.
  unfold Cpu.scatter. cbn [seq foldl]. cbn [Cpu.mem]. done.
Qed.

(** * Properties of the sorts of radix_sort.cpp *)

Lemma cpu_sample_keys : Forall is_u64 (take 4 (cpu_sample 0)).
Proof. repeat constructor; unfold is_u64; lia. Defined.

(** X1.  [radix_sort_single_lsb] sorts: called on two different arrays that
    hold at least [N] elements each, with [N] below 2^32 (the histogram counts
    are [uint32_t]), it leaves in [out[0..N)] the first [N] keys of [in] in
    ascending order: a sorted permutation of them. *)
Theorem single_lsb_sorts in_ out N (m : Cpu.memory) :
  in_ ≠ out → N ≤ length (m in_) → N ≤ length (m out) →
  (Z.of_nat N < 2 ^ 32)%Z →
  Forall is_u64 (take N (m in_)) →
  let m' := Cpu.radix_sort_single_lsb in_ out N m in
  take N (m' out) = merge_sort Z.le (take N (m in_))
  ∧ StronglySorted Z.le (take N (m' out))
  ∧ take N (m' out) ≡ₚ take N (m in_).
Proof.
  intros Hd Hi Ho HN Hk. cbv zeta.
  destruct (single_lsb_run in_ out N m Hd Hi Ho HN) as (_ & Hout & _).
  assert (Heq : take N (Cpu.radix_sort_single_lsb in_ out N m out)
                = merge_sort Z.le (take N (m in_))).
  { rewrite Hout, cpu_lsd_sorts by done.
    apply take_app_length'.
    rewrite merge_sort_Permutation, length_take. lia. }
  rewrite Heq. split_and!; [done| |].
  - apply StronglySorted_merge_sort; apply _.
  - apply merge_sort_Permutation.
Qed.

Lemma single_lsb_sorts_witness :
  let m' := Cpu.radix_sort_single_lsb 0 1 4 cpu_sample in
  take 4 (m' 1) = merge_sort Z.le (take 4 (cpu_sample 0))
  ∧ StronglySorted Z.le (take 4 (m' 1))
  ∧ take 4 (m' 1) ≡ₚ take 4 (cpu_sample 0).
Proof.
  apply (single_lsb_sorts 0 1 4 cpu_sample);
    [lia | simpl; lia | simpl; lia | lia | exact cpu_sample_keys].
Defined.

(** X2.  [radix_sort_single_lsb] uses [in] as its second buffer: after the
    call the first [N] elements of [in] are the sorted keys as well and the
    rest of [in] is as it was, so the caller finds its input unchanged only
    if it was sorted already. *)
Theorem single_lsb_overwrites_input in_ out N (m : Cpu.memory) :
  in_ ≠ out → N ≤ length (m in_) → N ≤ length (m out) →
  (Z.of_nat N < 2 ^ 32)%Z →
  Forall is_u64 (take N (m in_)) →
  let m' := Cpu.radix_sort_single_lsb in_ out N m in
  m' in_ = merge_sort Z.le (take N (m in_)) ++ drop N (m in_)
  ∧ (m' in_ = m in_ ↔ StronglySorted Z.le (take N (m in_))).
Proof.
  intros Hd Hi Ho HN Hk. cbv zeta.
  destruct (single_lsb_run in_ out N m Hd Hi Ho HN) as (Hin & _ & _).
  rewrite Hin, cpu_lsd_sorts by done. split; [done|].
  assert (Hs : StronglySorted Z.le (merge_sort Z.le (take N (m in_))))
    by (apply StronglySorted_merge_sort; apply _).
  split.
  - intros Heq. rewrite <- (take_drop N (m in_)) in Heq at 3.
    apply app_inj_1 in Heq as [Heq _].
    + by rewrite <- Heq.
    + by rewrite merge_sort_Permutation.
  - intros Hsorted.
    rewrite (StronglySorted_unique Z.le _ (take N (m in_)) Hs Hsorted).
    + apply take_drop.
    + apply merge_sort_Permutation.
Qed.

Lemma single_lsb_overwrites_input_witness :
  let m' := Cpu.radix_sort_single_lsb 0 1 4 cpu_sample in
  m' 0 = merge_sort Z.le (take 4 (cpu_sample 0)) ++ drop 4 (cpu_sample 0)
  ∧ (m' 0 = cpu_sample 0 ↔ StronglySorted Z.le (take 4 (cpu_sample 0))).
Proof.
  apply (single_lsb_overwrites_input 0 1 4 cpu_sample);
    [lia | simpl; lia | simpl; lia | lia | exact cpu_sample_keys].
Defined.

(** X3.  [radix_sort_single_lsb] writes nothing but the first [N] elements of
    its two arrays: every array keeps its length, the elements of [in] and
    [out] from index [N] on are as before, and every other array is
    untouched. *)
Theorem single_lsb_frame in_ out N (m : Cpu.memory) :
  in_ ≠ out → N ≤ length (m in_) → N ≤ length (m out) →
  (Z.of_nat N < 2 ^ 32)%Z →
  let m' := Cpu.radix_sort_single_lsb in_ out N m in
  (∀ a, length (m' a) = length (m a))
  ∧ (∀ a, drop N (m' a) = drop N (m a))
  ∧ (∀ a, a ≠ in_ → a ≠ out → m' a = m a).
Proof.
  intros Hd Hi Ho HN. cbv zeta.
  destruct (single_lsb_run in_ out N m Hd Hi Ho HN) as (Hin & Hout & Hoth).
  assert (HL : length (cpu_lsd Cpu.PASSES (take N (m in_))) = N)
    by (rewrite length_cpu_lsd, length_take; lia).
  split_and!; [| |done].
  - intros a. destruct (decide (a = in_)) as [->|Ha1];
      [|destruct (decide (a = out)) as [->|Ha2]].
    + rewrite Hin, length_app, HL, length_drop. lia.
    + rewrite Hout, length_app, HL, length_drop. lia.
    + by rewrite Hoth.
  - intros a. destruct (decide (a = in_)) as [->|Ha1];
      [|destruct (decide (a = out)) as [->|Ha2]].
    + rewrite Hin. apply drop_app_length'. symmetry. exact HL.
    + rewrite Hout. apply drop_app_length'. symmetry. exact HL.
    + by rewrite Hoth.
Qed.

Lemma single_lsb_frame_witness :
  let m' := Cpu.radix_sort_single_lsb 0 1 4 cpu_sample in
  (∀ a, length (m' a) = length (cpu_sample a))
  ∧ (∀ a, drop 4 (m' a) = drop 4 (cpu_sample a))
  ∧ (∀ a, a ≠ 0 → a ≠ 1 → m' a = cpu_sample a).
Proof.
  apply (single_lsb_frame 0 1 4 cpu_sample); [lia | simpl; lia | simpl; lia | lia].
Defined.

(** X4.  With [N = 0] [radix_sort_single_lsb] changes no array, also when
    [in] and [out] are the same array. *)
Theorem single_lsb_empty in_ out (m : Cpu.memory) a :
  Cpu.radix_sort_single_lsb in_ out 0 m a = m a.
Proof.
  rewrite single_lsb_unfold. unfold Cpu.copy_back.
  generalize (lsb_after_empty in_ out m Cpu.PASSES).
  generalize (lsb_after in_ out 0 m Cpu.PASSES). intros f Hf.
  destruct (bool_decide _).
  - unfold Cpu.copy_keys. cbn [seq foldl]. rewrite Hf. reflexivity.
  - rewrite Hf. reflexivity.
Qed.

(** X5.  Every pass of [radix_sort_single_lsb] is a stable distribution: it
    reads [src] without changing it and leaves in [dst[0..N)] the keys of
    [src[0..N)] grouped by their 11-bit digit, the digits ascending, the keys
    of one digit in the order they had in [src]; the key at index [i] lands
    at (number of keys with a smaller digit) + (number of keys before [i]
    with the same digit).  The pass ends with the two roles swapped. *)
Theorem single_lsb_pass_is_stable in_ out N (m : Cpu.memory) k :
  in_ ≠ out → N ≤ length (m in_) → N ≤ length (m out) →
  (Z.of_nat N < 2 ^ 32)%Z →
  let f := lsb_after in_ out N m k in
  let f' := lsb_after in_ out N m (S k) in
  let keys := take N (Cpu.mem f (Cpu.src f)) in
  let digit_of := Cpu.bucket_of (Cpu.shift_of k) in
  Cpu.mem f' (Cpu.src f) = Cpu.mem f (Cpu.src f)
  ∧ take N (Cpu.mem f' (Cpu.dst f)) = buckets digit_of Cpu.BUCKETS keys
  ∧ (∀ i x, keys !! i = Some x →
       Cpu.mem f' (Cpu.dst f) !! slot digit_of keys i x = Some x)
  ∧ (∀ i j x y, keys !! i = Some x → keys !! j = Some y →
       digit_of x = digit_of y → i < j →
       slot digit_of keys i x < slot digit_of keys j y)
  ∧ Cpu.src f' = Cpu.dst f ∧ Cpu.dst f' = Cpu.src f.
Proof.
  intros Hd Hi Ho HN. cbv zeta.
  destruct (lsb_loop_spec in_ out N m Hd Hi Ho HN k)
    as (Hs & Hdd & Hk & Hdl & Hin & Hout & Hoth & Hh & Hof).
  rewrite lsb_after_S.
  set (f := lsb_after in_ out N m k) in *.
  assert (Hsd : Cpu.src f ≠ Cpu.dst f).
  { rewrite Hs, Hdd. destruct (Nat.even k); done. }
  assert (Hsl : N ≤ length (Cpu.mem f (Cpu.src f))).
  { assert (length (take N (Cpu.mem f (Cpu.src f))) = N) as HL.
    { rewrite Hk, length_cpu_lsd, length_take. lia. }
    rewrite length_take in HL. lia. }
  assert (Hdl' : N ≤ length (Cpu.mem f (Cpu.dst f))).
  { rewrite Hdl, Hdd. destruct (Nat.even k); done. }
  destruct (pass_body_spec N f k Hsd Hsl Hdl' HN Hh Hof)
    as (Hs' & Hd' & Hm' & Hoth' & _).
  assert (HF : Forall (λ x, Cpu.bucket_of (Cpu.shift_of k) x < Cpu.BUCKETS)
                 (take N (Cpu.mem f (Cpu.src f)))).
  { apply Forall_forall. intros. apply bucket_of_lt. }
  assert (HL : length (take N (Cpu.mem f (Cpu.src f))) = N)
    by (rewrite length_take; lia).
  split_and!; [by apply Hoth'| | | |done|done].
  - rewrite Hm'. apply take_app_length'.
    unfold cpu_lsd_pass. by rewrite buckets_Permutation.
  - intros i x Hx. rewrite Hm'. unfold cpu_lsd_pass.
    rewrite lookup_app_l.
    + apply buckets_lookup_slot; [done|apply bucket_of_lt].
    + rewrite buckets_Permutation by done. by apply slot_lt.
  - intros i j x y. apply slot_stable.
Qed.

Lemma single_lsb_pass_is_stable_witness :
  let f := lsb_after 0 1 4 cpu_sample 0 in
  let f' := lsb_after 0 1 4 cpu_sample 1 in
  let keys := take 4 (Cpu.mem f (Cpu.src f)) in
  let digit_of := Cpu.bucket_of (Cpu.shift_of 0) in
  Cpu.mem f' (Cpu.src f) = Cpu.mem f (Cpu.src f)
  ∧ take 4 (Cpu.mem f' (Cpu.dst f)) = buckets digit_of Cpu.BUCKETS keys
  ∧ (∀ i x, keys !! i = Some x →
       Cpu.mem f' (Cpu.dst f) !! slot digit_of keys i x = Some x)
  ∧ (∀ i j x y, keys !! i = Some x → keys !! j = Some y →
       digit_of x = digit_of y → i < j →
       slot digit_of keys i x < slot digit_of keys j y)
  ∧ Cpu.src f' = Cpu.dst f ∧ Cpu.dst f' = Cpu.src f.
Proof.
  apply (single_lsb_pass_is_stable 0 1 4 cpu_sample 0);
    [lia | simpl; lia | simpl; lia | lia].
Defined.

(** X6.  The histogram and the offsets of a pass of [radix_sort_single_lsb]:
    for [N] keys, [N] below 2^32, [hist[b]] is the number of keys whose digit
    is [b], and [offsets] is its exclusive running sum: [offsets[0] = 0],
    [offsets[b + 1] = offsets[b] + hist[b]] without wrap-around, and
    [offsets[BUCKETS] = N]. *)
Theorem single_lsb_offsets_are_prefix_sums keys N shift hist offsets :
  length hist = Cpu.BUCKETS → length offsets = Cpu.BUCKETS + 1 →
  N ≤ length keys → (Z.of_nat N < 2 ^ 32)%Z →
  let h := Cpu.count_keys keys N shift hist in
  let o := Cpu.prefix_offsets h offsets in
  (∀ b, b < Cpu.BUCKETS →
     elt h b = Z.of_nat (length (filter (λ x, Cpu.bucket_of shift x = b) (take N keys))))
  ∧ elt o 0 = 0%Z
  ∧ (∀ b, b < Cpu.BUCKETS → elt o (b + 1) = (elt o b + elt h b)%Z)
  ∧ elt o Cpu.BUCKETS = Z.of_nat N.
Proof.
  intros Hh Ho Hk HN. cbv zeta.
  destruct (count_keys_spec keys N shift hist Hh Hk HN) as [Hh1 Hh2].
  assert (HL : length (take N keys) = N) by (rewrite length_take; lia).
  destruct (prefix_offsets_spec (Cpu.bucket_of shift) (take N keys)
              (Cpu.count_keys keys N shift hist) offsets Ho ltac:(lia) Hh2)
    as [Ho1 Ho2].
  split_and!; [done| | |].
  - rewrite Ho2 by lia. by rewrite <- (length_buckets _ 0).
  - intros b Hb. rewrite !Ho2, Hh2 by lia.
    replace (b + 1) with (S b) by lia.
    rewrite (filter_below_S _ b), length_app. lia.
  - rewrite Ho2 by lia. rewrite <- length_buckets, buckets_Permutation; [lia|].
    apply Forall_forall. intros. apply bucket_of_lt.
Qed.

Lemma single_lsb_offsets_are_prefix_sums_witness :
  let h := Cpu.count_keys [5; 3; 3; 1]%Z 4 0 (replicate Cpu.BUCKETS 0%Z) in
  let o := Cpu.prefix_offsets h (replicate (Cpu.BUCKETS + 1) 0%Z) in
  (∀ b, b < Cpu.BUCKETS →
     elt h b = Z.of_nat (length (filter (λ x, Cpu.bucket_of 0 x = b)
                                   (take 4 [5; 3; 3; 1]%Z))))
  ∧ elt o 0 = 0%Z
  ∧ (∀ b, b < Cpu.BUCKETS → elt o (b + 1) = (elt o b + elt h b)%Z)
  ∧ elt o Cpu.BUCKETS = Z.of_nat 4.
Proof.
  apply (single_lsb_offsets_are_prefix_sums [5; 3; 3; 1]%Z 4 0);
    [apply length_replicate | apply length_replicate | simpl; lia | lia].
Defined.

(** X7.  [radix_sort_single_msb] and [radix_sort_multi_threaded] do not sort:
    called on two different arrays, they copy the first [N] elements of [in]
    to [out] in the order they have, and change nothing else. *)
Theorem skeleton_sorts_only_copy in_ out N threads (m : Cpu.memory) :
  in_ ≠ out → N ≤ length (m in_) → N ≤ length (m out) →
  let m1 := Cpu.radix_sort_single_msb in_ out N m in
  let m2 := Cpu.radix_sort_multi_threaded in_ out N threads m in
  m1 out = take N (m in_) ++ drop N (m out)
  ∧ (∀ a, a ≠ out → m1 a = m a)
  ∧ m2 out = take N (m in_) ++ drop N (m out)
  ∧ (∀ a, a ≠ out → m2 a = m a).
Proof.
  intros _ Hi Ho. cbv zeta.
  unfold Cpu.radix_sort_single_msb, Cpu.radix_sort_multi_threaded.
  destruct (copy_keys_spec in_ out N m Hi Ho) as [H1 H2]. done.
Qed.

Lemma skeleton_sorts_only_copy_witness :
  let m1 := Cpu.radix_sort_single_msb 0 1 4 cpu_sample in
  let m2 := Cpu.radix_sort_multi_threaded 0 1 4 2 cpu_sample in
  m1 1 = take 4 (cpu_sample 0) ++ drop 4 (cpu_sample 1)
  ∧ (∀ a, a ≠ 1 → m1 a = cpu_sample a)
  ∧ m2 1 = take 4 (cpu_sample 0) ++ drop 4 (cpu_sample 1)
  ∧ (∀ a, a ≠ 1 → m2 a = cpu_sample a).
Proof.
  apply (skeleton_sorts_only_copy 0 1 4 2 cpu_sample); [lia | simpl; lia | simpl; lia].
Defined.

(** * Further properties of [run_opencl_radix] *)

(** X8.  The element count must be the size of [in]: a call with [N] smaller
    than [in.size()] prints the mismatch diagnostic and exits with status 1,
    whatever the stages write, since [out] has [N] elements and the reference
    has all those of [in]. *)
Theorem short_count_is_a_mismatch `{Stages} U in_ out N s :
  N < length (vectors s in_) →
  let r := run_opencl_radix U in_ out N s in
  console r = [Cerr "Mismatch!\n"] ∧ term r = Exited 1.
Proof.
  intros HN r.
  pose proof (run_report U in_ out N s) as Hrep.
  rewrite <- run_final in Hrep. fold r in Hrep.
  rewrite verify_report_mismatch in Hrep.
  - by injection Hrep.
  - intros Heq. apply (f_equal length) in Heq.
    unfold r in Heq. rewrite length_run_out in Heq.
    unfold cpu_reference in Heq. rewrite merge_sort_Permutation in Heq. lia.
Qed.

Lemma short_count_is_a_mismatch_witness :
  let r := @run_opencl_radix spec_stages no_garbage 0 1 3 sample in
  console r = [Cerr "Mismatch!\n"] ∧ term r = Exited 1.
Proof.
  apply (@short_count_is_a_mismatch spec_stages no_garbage 0 1 3 sample).
  simpl. lia.
Defined.

(** X9.  The verification is sound for any pair of stages: a call that
    returns has left in [out] the keys of [in] in ascending order, a sorted
    permutation of them, and [N] was the size of [in]. *)
Theorem returning_call_has_sorted `{Stages} U in_ out N s :
  term (run_opencl_radix U in_ out N s) = Returned →
  let r := run_opencl_radix U in_ out N s in
  vectors (final r) out = cpu_reference (vectors s in_)
  ∧ StronglySorted Z.le (vectors (final r) out)
  ∧ vectors (final r) out ≡ₚ vectors s in_
  ∧ length (vectors s in_) = N.
Proof.
  intros Hret r. fold r in Hret.
  pose proof (run_report U in_ out N s) as Hrep.
  rewrite <- run_final in Hrep. fold r in Hrep.
  assert (Heq : vectors (final r) out = cpu_reference (vectors s in_)).
  { destruct (decide (vectors (final r) out = cpu_reference (vectors s in_)))
      as [Heq|Hne]; [done|].
    rewrite verify_report_mismatch in Hrep by done.
    injection Hrep as _ Ht. congruence. }
  split_and!; [done| | |].
  - rewrite Heq. apply StronglySorted_merge_sort; apply _.
  - rewrite Heq. apply merge_sort_Permutation.
  - apply (f_equal length) in Heq. unfold r in Heq.
    rewrite length_run_out in Heq.
    unfold cpu_reference in Heq. rewrite merge_sort_Permutation in Heq. lia.
Qed.

Lemma returning_call_has_sorted_witness :
  let r := @run_opencl_radix spec_stages no_garbage 0 1 4 sample in
  vectors (final r) 1 = cpu_reference (vectors sample 0)
  ∧ StronglySorted Z.le (vectors (final r) 1)
  ∧ vectors (final r) 1 ≡ₚ vectors sample 0
  ∧ length (vectors sample 0) = 4.
Proof.
  apply (@returning_call_has_sorted spec_stages no_garbage 0 1 4 sample).
  vm_compute. reflexivity.
Defined.

(** The counters after a call, in closed form. *)
Lemma run_counters_small `{Stages} U in_ out N s :
  (Z.of_nat N < 2 ^ 32)%Z →
  is_u64 (total_host_to_device s) → is_u64 (total_device_to_host s) →
  total_host_to_device (final (run_opencl_radix U in_ out N s))
  = u64 (total_host_to_device s + 16384 * Z.of_nat (NUM_GROUPS N) + 8192)
  ∧ total_device_to_host (final (run_opencl_radix U in_ out N s))
    = u64 (total_device_to_host s + 8192 * Z.of_nat (NUM_GROUPS N)
           + 8 * Z.of_nat N).
Proof.
  intros HN Hu Hd.
  destruct (run_counters U in_ out N s Hu Hd) as [-> ->].
  pose proof (NUM_GROUPS_le N (small_fits N HN)) as Hle.
  unfold LOCAL_SZ in Hle.
  unfold pass_upload, pass_download, SZ_UINT, SZ_ULONG.
  rewrite PASSES_eq, RADIX_eq.
  set (c := Z.of_nat (NUM_GROUPS N * 256)).
  assert (c = 256 * Z.of_nat (NUM_GROUPS N))%Z as Hc by (unfold c; lia).
  rewrite !(u64_small (c * 4)) by (unfold is_u64; lia).
  rewrite !(u64_small (Z.of_nat N * 8)) by (unfold is_u64; lia).
  rewrite !(u64_small (Z.of_nat 256 * 4)) by (unfold is_u64; lia).
  split; f_equal; lia.
Qed.

Lemma length_join_replicate {A} n (l : list A) :
  length (mjoin (replicate n l)) = n * length l.
Proof.
  induction n as [|n IH]; [done|].
  rewrite join_replicate_S, length_app, IH. lia.
Qed.

(** X10.  What a call adds to the two counters depends on [N] alone, not on
    the keys nor on the stages: with [G] work-groups, [16384 * G + 8192]
    bytes to the host-to-device counter and [8192 * G + 8 * N] to the
    device-to-host counter, both modulo 2^64. *)
Theorem counters_grow_by_N_alone `{Stages} U in_ out N s :
  (Z.of_nat N < 2 ^ 32)%Z →
  is_u64 (total_host_to_device s) → is_u64 (total_device_to_host s) →
  let r := run_opencl_radix U in_ out N s in
  total_host_to_device (final r)
  = u64 (total_host_to_device s + 16384 * Z.of_nat (NUM_GROUPS N) + 8192)
  ∧ total_device_to_host (final r)
    = u64 (total_device_to_host s + 8192 * Z.of_nat (NUM_GROUPS N)
           + 8 * Z.of_nat N).
Proof.
  intros HN Hu Hd. cbv zeta. exact (run_counters_small U in_ out N s HN Hu Hd).
Qed.

Lemma counters_grow_by_N_alone_witness :
  let r := @run_opencl_radix spec_stages no_garbage 0 1 4 sample in
  total_host_to_device (final r)
  = u64 (total_host_to_device sample + 16384 * Z.of_nat (NUM_GROUPS 4) + 8192)
  ∧ total_device_to_host (final r)
    = u64 (total_device_to_host sample + 8192 * Z.of_nat (NUM_GROUPS 4)
           + 8 * Z.of_nat 4).
Proof.
  apply (@counters_grow_by_N_alone spec_stages no_garbage 0 1 4 sample);
    [lia | unfold is_u64; simpl; lia | unfold is_u64; simpl; lia].
Defined.

(** X11.  The counters are never reset: after two calls that both return,
    the totals that the second call prints are those of both calls. *)
Theorem counters_add_up_over_calls `{Stages} U1 U2 in1 out1 N1 in2 out2 N2 s :
  (Z.of_nat N1 < 2 ^ 32)%Z → (Z.of_nat N2 < 2 ^ 32)%Z →
  total_host_to_device s = 0%Z → total_device_to_host s = 0%Z →
  term (run_opencl_radix U1 in1 out1 N1 s) = Returned →
  let r1 := run_opencl_radix U1 in1 out1 N1 s in
  let r2 := run_opencl_radix U2 in2 out2 N2 (final r1) in
  total_host_to_device (final r2)
  = (16384 * Z.of_nat (NUM_GROUPS N1 + NUM_GROUPS N2) + 16384)%Z
  ∧ total_device_to_host (final r2)
    = (8192 * Z.of_nat (NUM_GROUPS N1 + NUM_GROUPS N2)
       + 8 * Z.of_nat (N1 + N2))%Z.
Proof.
  intros HN1 HN2 Hu Hd _ r1 r2.
  pose proof (NUM_GROUPS_le N1 (small_fits N1 HN1)) as Hle1.
  pose proof (NUM_GROUPS_le N2 (small_fits N2 HN2)) as Hle2.
  unfold LOCAL_SZ in Hle1, Hle2.
  destruct (run_counters_small U1 in1 out1 N1 s HN1) as [Hu1 Hd1].
  { rewrite Hu. by unfold is_u64. }
  { rewrite Hd. by unfold is_u64. }
  fold r1 in Hu1, Hd1. rewrite Hu in Hu1. rewrite Hd in Hd1.
  rewrite u64_small in Hu1 by (unfold is_u64; lia).
  rewrite u64_small in Hd1 by (unfold is_u64; lia).
  destruct (run_counters_small U2 in2 out2 N2 (final r1) HN2) as [Hu2 Hd2].
  { rewrite Hu1. unfold is_u64; lia. }
  { rewrite Hd1. unfold is_u64; lia. }
  fold r2 in Hu2, Hd2. rewrite Hu2, Hd2, Hu1, Hd1.
  rewrite !u64_small by (unfold is_u64; lia). lia.
Qed.

Lemma counters_add_up_over_calls_witness :
  let r1 := @run_opencl_radix spec_stages no_garbage 0 1 4 sample in
  let r2 := @run_opencl_radix spec_stages no_garbage 0 1 4 (final r1) in
  total_host_to_device (final r2)
  = (16384 * Z.of_nat (NUM_GROUPS 4 + NUM_GROUPS 4) + 16384)%Z
  ∧ total_device_to_host (final r2)
    = (8192 * Z.of_nat (NUM_GROUPS 4 + NUM_GROUPS 4) + 8 * Z.of_nat (4 + 4))%Z.
Proof.
  apply (@counters_add_up_over_calls spec_stages no_garbage no_garbage
           0 1 4 0 1 4 sample);
    [lia | lia | reflexivity | reflexivity | vm_compute; reflexivity].
Defined.

(** X12.  The data movements of a call, for any pair of stages: the input
    goes up once, when [buf_in] is created; each of the 8 passes uploads the
    cleared histogram, downloads the histogram, uploads [pg] and uploads
    [go], in this order; the result comes down once, at the end.  The keys
    cross the bus twice, and a call makes 34 movements. *)
Theorem transfer_schedule `{Stages} U in_ out N s :
  let r := run_opencl_radix U in_ out N s in
  let cells := NUM_GROUPS N * RADIX in
  transfers (final r)
  = transfers s
    ++ [Transfer HostToDevice (u64 (Z.of_nat N * SZ_ULONG))]
    ++ mjoin (replicate PASSES (pass_transfers cells))
    ++ [Transfer DeviceToHost (u64 (Z.of_nat N * SZ_ULONG))]
  ∧ length (transfers (final r)) = length (transfers s) + 34.
Proof.
  cbv zeta. rewrite run_transfers. split; [done|].
  rewrite !length_app, length_join_replicate, PASSES_eq.
  cbn [length pass_transfers]. lia.
Qed.

(** X13.  The launch geometry: when [N + 255] fits a [size_t], the global
    size is a whole number of work-groups of 256 lanes, it has a lane for
    every key and fewer than 256 idle ones; no key gives no work-group. *)
Theorem launch_geometry N :
  fits_size_t N →
  GLOBAL_SZ N = NUM_GROUPS N * LOCAL_SZ
  ∧ N ≤ GLOBAL_SZ N < N + LOCAL_SZ
  ∧ (N = 0 → NUM_GROUPS N = 0)
  ∧ (0 < N → 0 < NUM_GROUPS N).
Proof.
  intros HN.
  destruct (GLOBAL_SZ_cover N HN) as [Hg Hc].
  pose proof (NUM_GROUPS_le N HN) as Hle.
  split_and!; [done|done| | |].
  - rewrite Hg. unfold LOCAL_SZ in *. lia.
  - intros ->. apply NUM_GROUPS_0.
  - intros Hpos. rewrite Hg in Hc. unfold LOCAL_SZ in *. lia.
Qed.

Lemma launch_geometry_witness :
  GLOBAL_SZ 300 = NUM_GROUPS 300 * LOCAL_SZ
  ∧ 300 ≤ GLOBAL_SZ 300 < 300 + LOCAL_SZ
  ∧ (300 = 0 → NUM_GROUPS 300 = 0)
  ∧ (0 < 300 → 0 < NUM_GROUPS 300).
Proof. apply (launch_geometry 300). unfold fits_size_t. lia. Defined.

(** ** The host offsets, when no sum wraps *)

Lemma digits_total_S hist NG d :
  digits_total hist NG (S d)
  = (digits_total hist NG d + sumZ (column hist d NG))%Z.
Proof.
  unfold digits_total. rewrite seq_S, fmap_app, sumZ_app. cbn. lia.
Qed.

Lemma column_sum_mono hist d g g' :
  g ≤ g' →
  (∀ k, k < g' → (0 ≤ elt hist (k * RADIX + d))%Z) →
  (0 ≤ sumZ (column hist d g) ≤ sumZ (column hist d g'))%Z.
Proof.
  revert g. induction g' as [|g' IH]; intros g Hg Hpos.
  - replace g with 0 by lia. done.
  - pose proof (Hpos g' ltac:(lia)) as He.
    assert (Hpos' : ∀ k, k < g' → (0 ≤ elt hist (k * RADIX + d))%Z)
      by (intros k Hk; apply Hpos; lia).
    rewrite (column_S hist d g'), sumZ_snoc.
    destruct (decide (g = S g')) as [->|Hne].
    + rewrite (column_S hist d g'), sumZ_snoc.
      pose proof (IH g' ltac:(lia) Hpos'). lia.
    + pose proof (IH g ltac:(lia) Hpos'). lia.
Qed.

Lemma digits_total_mono hist NG d d' :
  d ≤ d' →
  (∀ k, k < d' → (0 ≤ sumZ (column hist k NG))%Z) →
  (0 ≤ digits_total hist NG d ≤ digits_total hist NG d')%Z.
Proof.
  revert d. induction d' as [|d' IH]; intros d Hd Hpos.
  - replace d with 0 by lia. done.
  - pose proof (Hpos d' ltac:(lia)) as He.
    assert (Hpos' : ∀ k, k < d' → (0 ≤ sumZ (column hist k NG))%Z)
      by (intros k Hk; apply Hpos; lia).
    rewrite (digits_total_S hist NG d').
    destruct (decide (d = S d')) as [->|Hne].
    + rewrite (digits_total_S hist NG d').
      pose proof (IH d' ltac:(lia) Hpos'). lia.
    + pose proof (IH d ltac:(lia) Hpos'). lia.
Qed.

Section host_tiling.
Variables (hist : list Z) (NG : nat) (tot pre off : list Z).
Hypothesis tot_size : RADIX ≤ length tot.
Hypothesis pre_size : RADIX ≤ length pre.
Hypothesis off_size : NG * RADIX ≤ length off.
Hypothesis counts_nonneg :
  ∀ g d, g < NG → d < RADIX → (0 ≤ elt hist (g * RADIX + d))%Z.
Hypothesis total_fits : (hist_total hist NG < 2 ^ 32)%Z.

Lemma column_bounds d g :
  d < RADIX → g ≤ NG →
  (0 ≤ sumZ (column hist d g) ≤ sumZ (column hist d NG))%Z.
Proof.
  intros Hd Hg. apply column_sum_mono; [done|].
  intros k Hk. by apply counts_nonneg.
Qed.

Lemma digits_bounds d :
  d ≤ RADIX →
  (0 ≤ digits_total hist NG d ≤ hist_total hist NG)%Z.
Proof.
  intros Hd. apply digits_total_mono; [done|].
  intros k Hk. by apply column_bounds.
Qed.

Lemma column_fits d :
  d < RADIX →
  (digits_total hist NG d + sumZ (column hist d NG) < 2 ^ 32)%Z.
Proof.
  intros Hd. rewrite <- digits_total_S.
  pose proof (digits_bounds (S d) ltac:(lia)). lia.
Qed.

Lemma bt_no_wrap d :
  d < RADIX → elt (compute_bt hist NG tot) d = sumZ (column hist d NG).
Proof.
  intros Hd.
  destruct (compute_bt_spec hist NG tot tot_size) as [_ ->]; [|done].
  rewrite bucket_sum_spec.
  pose proof (column_bounds d NG Hd ltac:(lia)).
  pose proof (column_fits d Hd). pose proof (digits_bounds d ltac:(lia)).
  apply u32_small. unfold is_u32. lia.
Qed.

Lemma go_no_wrap g d :
  g < NG → d < RADIX →
  elt (compute_go hist NG off) (g * RADIX + d) = sumZ (column hist d g).
Proof.
  intros Hg Hd.
  destruct (compute_go_spec hist NG off off_size) as [_ ->]; [|done|done].
  pose proof (column_bounds d g Hd ltac:(lia)).
  pose proof (column_fits d Hd). pose proof (digits_bounds d ltac:(lia)).
  apply u32_small. unfold is_u32. lia.
Qed.

Lemma pg_no_wrap d :
  d < RADIX →
  elt (compute_pg (compute_bt hist NG tot) pre) d = digits_total hist NG d.
Proof.
  destruct (compute_pg_spec (compute_bt hist NG tot) pre pre_size)
    as (_ & H0 & HS).
  induction d as [|d IH]; intros Hd; [by rewrite H0|].
  rewrite HS by lia. replace (S d - 1) with d by lia.
  rewrite IH, bt_no_wrap, digits_total_S by lia.
  pose proof (column_bounds d NG ltac:(lia) ltac:(lia)).
  pose proof (column_fits d ltac:(lia)). pose proof (digits_bounds d ltac:(lia)).
  apply u32_small. unfold is_u32. lia.
Qed.

(** X14.  The offsets the host computes tile the output.  For a histogram
    of non-negative counts whose total is below 2^32 no sum wraps: the
    range of digit 0 starts at 0, the range of digit [d + 1] starts where
    that of [d] ends, and the last one ends at the total count; inside a
    digit, group 0 starts at offset 0, group [g + 1] starts where group [g]
    ends, and the last group ends at the bucket total. *)
Theorem host_offsets_tile :
  let bt := compute_bt hist NG tot in
  let pg := compute_pg bt pre in
  let go := compute_go hist NG off in
  elt pg 0 = 0%Z
  ∧ (∀ d, S d < RADIX → elt pg (S d) = (elt pg d + elt bt d)%Z)
  ∧ (elt pg (RADIX - 1) + elt bt (RADIX - 1))%Z = hist_total hist NG
  ∧ (∀ d, 0 < NG → d < RADIX → elt go (0 * RADIX + d) = 0%Z)
  ∧ (∀ g d, S g < NG → d < RADIX →
       elt go (S g * RADIX + d)
       = (elt go (g * RADIX + d) + elt hist (g * RADIX + d))%Z)
  ∧ (∀ g d, S g = NG → d < RADIX →
       elt bt d = (elt go (g * RADIX + d) + elt hist (g * RADIX + d))%Z).
Proof.
  cbv zeta. split_and!.
  - by rewrite pg_no_wrap by (rewrite RADIX_eq; lia).
  - intros d Hd. rewrite !pg_no_wrap, bt_no_wrap by lia.
    apply digits_total_S.
  - rewrite pg_no_wrap, bt_no_wrap by (rewrite RADIX_eq; lia).
    rewrite <- digits_total_S. unfold hist_total. f_equal.
  - intros d HNG Hd. by rewrite go_no_wrap.
  - intros g d Hg Hd. rewrite !go_no_wrap by lia.
    by rewrite column_S, sumZ_snoc.
  - intros g d Hg Hd. rewrite bt_no_wrap, go_no_wrap by lia.
    rewrite <- Hg. by rewrite column_S, sumZ_snoc.
Qed.
End host_tiling.

Lemma ones_nonneg n i : (0 ≤ elt (replicate n 1%Z) i)%Z.
Proof.
  unfold elt. destruct (replicate n 1%Z !! i) as [x|] eqn:E; [|done].
  apply lookup_replicate in E as [-> _]. done.
Qed.

Lemma host_offsets_tile_witness :
  let hist := replicate 512 1%Z in
  let bt := compute_bt hist 2 (replicate 256 0%Z) in
  let pg := compute_pg bt (replicate 256 0%Z) in
  let go := compute_go hist 2 (replicate 512 0%Z) in
  elt pg 0 = 0%Z
  ∧ (∀ d, S d < RADIX → elt pg (S d) = (elt pg d + elt bt d)%Z)
  ∧ (elt pg (RADIX - 1) + elt bt (RADIX - 1))%Z = hist_total hist 2
  ∧ (∀ d, 0 < 2 → d < RADIX → elt go (0 * RADIX + d) = 0%Z)
  ∧ (∀ g d, S g < 2 → d < RADIX →
       elt go (S g * RADIX + d)
       = (elt go (g * RADIX + d) + elt hist (g * RADIX + d))%Z)
  ∧ (∀ g d, S g = 2 → d < RADIX →
       elt bt d = (elt go (g * RADIX + d) + elt hist (g * RADIX + d))%Z).
Proof.
  apply (host_offsets_tile (replicate 512 1%Z) 2).
  - rewrite length_replicate. vm_compute. lia.
  - rewrite length_replicate. vm_compute. lia.
  - rewrite length_replicate. vm_compute. lia.
  - intros g d _ _. apply ones_nonneg.
  - vm_compute. reflexivity.
Defined.

(** ** The buffer assertions on a non-empty input *)

Lemma clCreateBuffer_ok size : size ≠ 0%Z → clCreateBuffer size = CL_SUCCESS.
Proof. intros Hs. unfold clCreateBuffer. by rewrite decide_False. Qed.

(** X15.  For [0 < N < 2^32] none of the five buffers is asked with size 0,
    so none of the assertions of lines 84-96 fails on that account: the call
    with its assertions is the call of the model. *)
Theorem checked_run_finishes `{Stages} U in_ out N s :
  0 < N → (Z.of_nat N < 2 ^ 32)%Z →
  run_opencl_radix_checked U in_ out N s
  = Finished (run_opencl_radix U in_ out N s).
Proof.
  intros Hpos HN.
  pose proof (NUM_GROUPS_cover N (small_fits N HN)) as Hcover.
  pose proof (NUM_GROUPS_le N (small_fits N HN)) as Hle.
  unfold LOCAL_SZ in Hcover, Hle.
  assert (Hkeys : clCreateBuffer (u64 (Z.of_nat N * SZ_ULONG)) = CL_SUCCESS).
  { apply clCreateBuffer_ok. unfold SZ_ULONG.
    rewrite u64_small; [lia|]. unfold is_u64. lia. }
  assert (Hcells : clCreateBuffer
                     (u64 (u64 (Z.of_nat (NUM_GROUPS N) * Z.of_nat RADIX) * SZ_UINT))
                   = CL_SUCCESS).
  { apply clCreateBuffer_ok. unfold SZ_UINT. rewrite RADIX_eq.
    rewrite (u64_small (Z.of_nat (NUM_GROUPS N) * Z.of_nat 256));
      [|unfold is_u64; lia].
    rewrite u64_small; [lia|]. unfold is_u64. lia. }
  assert (Hpg : clCreateBuffer (u64 (Z.of_nat RADIX * SZ_UINT)) = CL_SUCCESS).
  { apply clCreateBuffer_ok. rewrite RADIX_eq. vm_compute. discriminate. }
  unfold run_opencl_radix_checked. cbv zeta.
  rewrite Hkeys, Hcells, Hpg.
  rewrite !decide_False by (intros Hne; by apply Hne). reflexivity.
Qed.

Lemma checked_run_finishes_witness :
  @run_opencl_radix_checked spec_stages no_garbage 0 1 4 sample
  = Finished (@run_opencl_radix spec_stages no_garbage 0 1 4 sample).
Proof.
  apply (@checked_run_finishes spec_stages no_garbage 0 1 4 sample); lia.
Defined.
